(** * Pool bookkeeping of the default IPAM driver

    A shallow embedding of [libnetwork/ipams/defaultipam/structures.go]:
    pool identifiers and their string form, capacity arithmetic on 128-bit
    counters, the availability report of a pool, and the iterator that walks
    two sorted prefix slices in merged order.

    Go values are modelled as the program has them.  Fixed-width integers are
    integers of [Z] with the wrap-around written out, a run-time panic is an
    explicit outcome of the computation, and the two packages the file leans
    on ([lukechampine.com/uint128] and [net/netip]) are modelled by the part
    of their behaviour that the file uses. *)

From Stdlib Require Import ZArith Lia Bool Ascii String.
From Stdlib Require Import DecimalString HexadecimalString DecimalPos HexadecimalPos DecimalN HexadecimalN.
From stdpp Require Import base tactics option numbers list sorting strings gmap.

Local Open Scope Z_scope.

(** ** Outcomes of a Go computation *)

(** What makes the Go runtime (or a library) abort the computation. *)
Inductive panic : Type :=
| Overflow          (* uint128: panic("overflow") *)
| IndexOutOfRange.  (* runtime error: index out of range *)

(** A computation returns, panics, or is cut off by the step budget of the
    model (the last one only concerns the loop of a caller, see [walk]). *)
Inductive exec (A : Type) : Type :=
| Ret (x : A)
| Panics (p : panic)
| OutOfFuel.

Arguments Ret {A} x.
Arguments Panics {A} p.
Arguments OutOfFuel {A}.

Definition exec_bind {A B : Type} (f : A -> exec B) (m : exec A) : exec B :=
  match m with
  | Ret x => f x
  | Panics p => Panics p
  | OutOfFuel => OutOfFuel
  end.

#[global] Instance exec_mbind : MBind exec := @exec_bind.
#[global] Instance exec_mret : MRet exec := @Ret.

(** ** Machine integers *)

(** Go's [int] on the 64-bit platforms the daemon is built for. *)
Definition max_int : Z := 2 ^ 63 - 1.
Definition min_int : Z := - 2 ^ 63.
Definition wrap_int (z : Z) : Z := (z + 2 ^ 63) `mod` 2 ^ 64 - 2 ^ 63.

(** [uint64] and the conversion [uint(x)] of an [int]. *)
Definition wrap_u64 (z : Z) : Z := z `mod` 2 ^ 64.
Definition is_u64 (z : Z) : Prop := 0 <= z < 2 ^ 64.

(** [x << n] and [x >> n] on [uint64]; a shift count of 64 or more gives 0. *)
Definition shl64 (x n : Z) : Z := wrap_u64 (Z.shiftl x n).
Definition shr64 (x n : Z) : Z := Z.shiftr x n.

(** [len(s)] of a slice, an [int]. *)
Definition len {A : Type} (s : list A) : Z := Z.of_nat (length s).

(** [s[i]] with the bounds check of the runtime. *)
Definition index {A : Type} (s : list A) (i : Z) : exec A :=
  if bool_decide (0 <= i < len s) then
    match s !! Z.to_nat i with
    | Some x => Ret x
    | None => Panics IndexOutOfRange
    end
  else Panics IndexOutOfRange.

(** ** lukechampine.com/uint128 *)

Module uint128.

(** [type Uint128 struct { Lo, Hi uint64 }]; [New lo hi] is the library's
    constructor [uint128.New(lo, hi)]. *)
Record Uint128 : Type := New { Lo : Z; Hi : Z }.

#[global] Instance Uint128_eq_dec : EqDecision Uint128.
Proof. solve_decision. Defined.

Definition Zero : Uint128 := New 0 0.

Definition From64 (v : Z) : Uint128 := New v 0.

(** The number a value stands for, and the values that are two [uint64]. *)
Definition to_Z (u : Uint128) : Z := Hi u * 2 ^ 64 + Lo u.
Definition of_Z (z : Z) : Uint128 := New (z `mod` 2 ^ 64) ((z / 2 ^ 64) `mod` 2 ^ 64).
Definition wf (u : Uint128) : Prop := is_u64 (Lo u) /\ is_u64 (Hi u).

(** [u.Cmp(v)]: -1, 0 or +1. *)
Definition Cmp (u v : Uint128) : Z :=
  if bool_decide (u = v) then 0
  else if (Hi u <? Hi v) || ((Hi u =? Hi v) && (Lo u <? Lo v)) then -1
  else 1.

(** [bits.Add64(x, y, carry)]: the sum and the carry out. *)
Definition Add64 (x y carry : Z) : Z * Z :=
  (wrap_u64 (x + y + carry), (x + y + carry) / 2 ^ 64).

(** [u.Add(v)]: panics when the sum does not fit 128 bits. *)
Definition Add (u v : Uint128) : exec Uint128 :=
  let '(lo, carry) := Add64 (Lo u) (Lo v) 0 in
  let '(hi, carry) := Add64 (Hi u) (Hi v) carry in
  if bool_decide (carry <> 0) then Panics Overflow else Ret (New lo hi).

(** [u.Lsh(n)], [n] a [uint]. *)
Definition Lsh (u : Uint128) (n : Z) : Uint128 :=
  if 64 <? n then New 0 (shl64 (Lo u) (n - 64))
  else New (shl64 (Lo u) n) (Z.lor (shl64 (Hi u) n) (shr64 (Lo u) (64 - n))).

End uint128.

Export uint128.

(** ** net/netip: addresses and prefixes *)

Module netip.

(** The tag of an address: none (the zero [Addr]), IPv4, IPv6 without a
    zone, IPv6 with a zone. *)
Inductive zone : Type :=
| z0
| z4
| z6noz
| z6 (name : string).

#[global] Instance zone_eq_dec : EqDecision zone.
Proof. solve_decision. Defined.

(** [type Addr struct { addr uint128; z ... }]; an IPv4 address is kept in
    its IPv4-mapped form. *)
Record Addr : Type := mkAddr { addr : Uint128; z : zone }.

#[global] Instance Addr_eq_dec : EqDecision Addr.
Proof. solve_decision. Defined.

(** [type Prefix struct { ip Addr; bitsPlusOne uint8 }]. *)
Record Prefix : Type := mkPrefix { ip : Addr; bitsPlusOne : Z }.

#[global] Instance Prefix_eq_dec : EqDecision Prefix.
Proof. solve_decision. Defined.

(** The zero values [netip.Addr{}] and [netip.Prefix{}]. *)
Definition Addr_zero : Addr := mkAddr Zero z0.
Definition Prefix_zero : Prefix := mkPrefix Addr_zero 0.

Definition AddrFrom4 (a b c d : Z) : Addr :=
  mkAddr (New (Z.lor 0xffff00000000
                 (Z.lor (Z.shiftl a 24) (Z.lor (Z.shiftl b 16) (Z.lor (Z.shiftl c 8) d)))) 0)
         z4.

(** An IPv6 address from its two 64-bit halves. *)
Definition AddrFrom16 (hi lo : Z) : Addr := mkAddr (New lo hi) z6noz.

Definition Is4 (a : Addr) : bool := bool_decide (z a = z4).
Definition Is6 (a : Addr) : bool := negb (bool_decide (z a = z0)) && negb (bool_decide (z a = z4)).

Definition BitLen (a : Addr) : Z :=
  match z a with
  | z0 => 0
  | z4 => 32
  | _ => 128
  end.

(** [p.Addr()] and [p.Bits()]. *)
Definition Prefix_Addr (p : Prefix) : Addr := ip p.
Definition Bits (p : Prefix) : Z := bitsPlusOne p - 1.

Definition withoutZone (a : Addr) : Addr :=
  if Is6 a then mkAddr (addr a) z6noz else a.

Definition PrefixFrom (a : Addr) (bits : Z) : Prefix :=
  mkPrefix (withoutZone a)
           (if negb (bool_decide (a = Addr_zero)) && (0 <=? bits) && (bits <=? BitLen a)
            then bits + 1 else 0).

Definition IsValid (p : Prefix) : bool := 0 <? bitsPlusOne p.

(** The addresses the package can build: two [uint64] words, all zero under
    the tag [z0], and the IPv4-mapped form [::ffff:a.b.c.d] under [z4]. *)
Definition Addr_wf (x : Addr) : Prop :=
  wf (addr x) /\
  match z x with
  | z0 => addr x = Zero
  | z4 => Hi (addr x) = 0 /\ 0xffff00000000 <= Lo (addr x) < 0x1000000000000
  | _ => True
  end.

(** The prefixes the package can build: a valid one has an IPv4 or zone-less
    IPv6 address and a length within the address; an invalid one has
    [bitsPlusOne = 0]. *)
Definition Prefix_wf (p : Prefix) : Prop :=
  Addr_wf (ip p) /\
  (bitsPlusOne p = 0 \/
   ((z (ip p) = z4 \/ z (ip p) = z6noz) /\ 1 <= bitsPlusOne p <= BitLen (ip p) + 1)).

Definition ValidPrefix (p : Prefix) : Prop := Prefix_wf p /\ IsValid p = true.

End netip.

Export netip.

(** Prefixes are keys of Go maps: they are countable. *)
#[global] Instance Uint128_countable : Countable Uint128.
Proof.
  refine (inj_countable' (fun u => (Lo u, Hi u)) (fun q => New q.1 q.2) _).
  by intros [].
Defined.

#[global] Instance zone_countable : Countable zone.
Proof.
  refine (inj_countable'
            (fun k => match k with
                      | z0 => inl 0%nat
                      | z4 => inl 1%nat
                      | z6noz => inl 2%nat
                      | z6 n => inr n
                      end)
            (fun c => match c with
                      | inl 0%nat => z0
                      | inl 1%nat => z4
                      | inl _ => z6noz
                      | inr n => z6 n
                      end) _).
  by intros [].
Defined.

#[global] Instance Addr_countable : Countable Addr.
Proof.
  refine (inj_countable' (fun x => (addr x, z x)) (fun q => mkAddr q.1 q.2) _).
  by intros [].
Defined.

#[global] Instance Prefix_countable : Countable Prefix.
Proof.
  refine (inj_countable' (fun p => (ip p, bitsPlusOne p)) (fun q => mkPrefix q.1 q.2) _).
  by intros [].
Defined.

(** The text side of [net/netip], which belongs to Go's standard library
    and not to the program: [netip.ParsePrefix] ([None] when it returns an
    error, in which case the prefix it returns is the zero one) and
    [Prefix.String].  The program is modelled over any implementation of
    the two. *)
Class NetipText : Type := {
  ParsePrefix : string -> option Prefix;
  Prefix_String : Prefix -> string
}.

(** [strings.Split(s, sep)] for a separator of one byte. *)
Fixpoint Split (sep : ascii) (s : string) : list string :=
  match s with
  | EmptyString => [EmptyString]
  | String c s' =>
      if decide (c = sep) then EmptyString :: Split sep s'
      else match Split sep s' with
           | [] => [String c EmptyString]
           | x :: xs => String c x :: xs
           end
  end.

(** Whether the byte [c] occurs in [s]. *)
Fixpoint contains (c : ascii) (s : string) : bool :=
  match s with
  | EmptyString => false
  | String d s' => bool_decide (d = c) || contains c s'
  end.

(** What [PoolID] relies on from [net/netip], for the prefixes the package
    can build: a valid prefix is written as an address and a bit length
    around a single ['/'], and that text parses back to the prefix. *)
Definition netip_text_contract `{NetipText} : Prop :=
  forall p : Prefix, ValidPrefix p ->
    (exists address bits : string,
        Prefix_String p = address +:+ "/" +:+ bits /\
        contains "/" address = false /\ contains "/" bits = false) /\
    ParsePrefix (Prefix_String p) = Some p.

(** A text form that meets the contract, in the notation of the spec's
    examples: the dotted decimal of an IPv4 address and the eight hexadecimal
    groups of an IPv6 address, followed by ['/'] and the bit length in
    decimal.  ([net/netip] moreover abbreviates the longest run of zero
    groups of an IPv6 address; nothing in [PoolID] depends on the spelling of
    the address beyond the contract.) *)
Definition itoa (n : Z) : string :=
  DecimalString.NilEmpty.string_of_uint (N.to_uint (Z.to_N n)).

Definition atoi (s : string) : option Z :=
  if bool_decide (s = "") then None
  else d ← DecimalString.NilEmpty.uint_of_string s; Some (Z.of_N (N.of_uint d)).

Definition hex_of (n : Z) : string :=
  HexadecimalString.NilEmpty.string_of_uint (N.to_hex_uint (Z.to_N n)).

Definition of_hex (s : string) : option Z :=
  if bool_decide (s = "") then None
  else d ← HexadecimalString.NilEmpty.uint_of_string s; Some (Z.of_N (N.of_hex_uint d)).

(** The three separators of the text form; none of them is a digit. *)
Definition separator (c : ascii) : Prop := c = "/"%char \/ c = "."%char \/ c = ":"%char.

(** The [k]-th byte and the [k]-th 16-bit group of a word, from the low end. *)
Definition octet (v k : Z) : Z := (v / 2 ^ (8 * k)) `mod` 2 ^ 8.
Definition group (v k : Z) : Z := (v / 2 ^ (16 * k)) `mod` 2 ^ 16.

Definition Addr_text (x : Addr) : string :=
  match z x with
  | z0 => ""
  | z4 =>
      itoa (octet (Lo (addr x)) 3) +:+ "." +:+ itoa (octet (Lo (addr x)) 2) +:+ "." +:+
      itoa (octet (Lo (addr x)) 1) +:+ "." +:+ itoa (octet (Lo (addr x)) 0)
  | _ =>
      hex_of (group (Hi (addr x)) 3) +:+ ":" +:+ hex_of (group (Hi (addr x)) 2) +:+ ":" +:+
      hex_of (group (Hi (addr x)) 1) +:+ ":" +:+ hex_of (group (Hi (addr x)) 0) +:+ ":" +:+
      hex_of (group (Lo (addr x)) 3) +:+ ":" +:+ hex_of (group (Lo (addr x)) 2) +:+ ":" +:+
      hex_of (group (Lo (addr x)) 1) +:+ ":" +:+ hex_of (group (Lo (addr x)) 0)
  end.

Definition text_Prefix_String (p : Prefix) : string :=
  if IsValid p then Addr_text (ip p) +:+ "/" +:+ itoa (Bits p) else "invalid Prefix".

Definition below (bound : Z) (v : option Z) : option Z :=
  x ← v; if bool_decide (0 <= x < bound) then Some x else None.

Definition text_ParseAddr (s : string) : option Addr :=
  match Split "." s with
  | [a; b; c; d] =>
      a ← below 256 (atoi a); b ← below 256 (atoi b);
      c ← below 256 (atoi c); d ← below 256 (atoi d);
      Some (mkAddr (New (0xffff00000000 + a * 2 ^ 24 + b * 2 ^ 16 + c * 2 ^ 8 + d) 0) z4)
  | _ =>
      match Split ":" s with
      | [g0; g1; g2; g3; g4; g5; g6; g7] =>
          g0 ← below 65536 (of_hex g0); g1 ← below 65536 (of_hex g1);
          g2 ← below 65536 (of_hex g2); g3 ← below 65536 (of_hex g3);
          g4 ← below 65536 (of_hex g4); g5 ← below 65536 (of_hex g5);
          g6 ← below 65536 (of_hex g6); g7 ← below 65536 (of_hex g7);
          Some (mkAddr (New (g4 * 2 ^ 48 + g5 * 2 ^ 32 + g6 * 2 ^ 16 + g7)
                            (g0 * 2 ^ 48 + g1 * 2 ^ 32 + g2 * 2 ^ 16 + g3)) z6noz)
      | _ => None
      end
  end.

Definition text_ParsePrefix (s : string) : option Prefix :=
  match Split "/" s with
  | [a; n] =>
      x ← text_ParseAddr a;
      bits ← atoi n;
      if bool_decide (0 <= bits <= BitLen x) then Some (mkPrefix x (bits + 1)) else None
  | _ => None
  end.

Definition netip_text : NetipText :=
  {| ParsePrefix := text_ParsePrefix; Prefix_String := text_Prefix_String |}.

(** ** libnetwork/types: the error of a malformed parameter *)

Inductive error : Type :=
| InvalidParameter (msg : string).

(** [types.InvalidParameterErrorf("invalid string form for subnetkey: %s", str)]. *)
Definition InvalidParameterErrorf (str : string) : error :=
  InvalidParameter ("invalid string form for subnetkey: " +:+ str).

(** ** libnetwork/internal/addrset *)

(** Modelled from the spec: the address tracker [addrset.AddrSet] is not part
    of the sources at hand.  The spec gives its interface: it "reports the
    prefix it tracks and the count of not-yet-selected addresses within it". *)
Record AddrSet : Type := mkAddrSet { Pool : Prefix; Unselected : Z }.

(** Modelled from the spec: the constant [addrset.MaxUint64], "the 64-bit
    maximum". *)
Definition MaxUint64 : Z := 2 ^ 64 - 1.

(** ** libnetwork/ipams/defaultipam *)

(** [SubnetKey] is the composite key to an address pool within an address
    space. *)
Record SubnetKey : Type := mkSubnetKey { Subnet : Prefix; ChildSubnet : Prefix }.

(** [PoolID] embeds a [SubnetKey]. *)
Record PoolID : Type := mkPoolID { AddressSpace : string; key : SubnetKey }.

(** [PoolData] contains the configured pool data. *)
Record PoolData : Type := mkPoolData {
  addrs : AddrSet;
  children : gset Prefix;
  availableRange : Uint128;
  autoRelease : bool
}.

Definition SubnetKey_Is6 (k : SubnetKey) : bool := Is6 (Prefix_Addr (Subnet k)).

Definition PoolID_zero : PoolID := mkPoolID "" (mkSubnetKey Prefix_zero Prefix_zero).

Definition set_AddressSpace (s : string) (p : PoolID) : PoolID := mkPoolID s (key p).
Definition set_Subnet (x : Prefix) (p : PoolID) : PoolID :=
  mkPoolID (AddressSpace p) (mkSubnetKey x (ChildSubnet (key p))).
Definition set_ChildSubnet (x : Prefix) (p : PoolID) : PoolID :=
  mkPoolID (AddressSpace p) (mkSubnetKey (Subnet (key p)) x).

(** [PoolIDFromString] creates a new PoolID and populates the SubnetKey
    object reading it from the given string.  It returns the (possibly
    partly filled) identifier and the error, if any. *)
Definition PoolIDFromString `{NetipText} (str : string) : exec (PoolID * option error) :=
  let pID := PoolID_zero in
  if bool_decide (str = "") then mret (pID, Some (InvalidParameterErrorf str))
  else
    let p := Split "/" str in
    if bool_decide (len p <> 3) && bool_decide (len p <> 5)
    then mret (pID, Some (InvalidParameterErrorf str))
    else
      p0 ← index p 0;
      let pID := set_AddressSpace p0 pID in
      p1 ← index p 1;
      p2 ← index p 2;
      let r := ParsePrefix (p1 +:+ "/" +:+ p2) in
      let pID := set_Subnet (default Prefix_zero r) pID in
      if bool_decide (r = None) then mret (pID, Some (InvalidParameterErrorf str))
      else
        if bool_decide (len p = 5) then
          p3 ← index p 3;
          p4 ← index p 4;
          let r := ParsePrefix (p3 +:+ "/" +:+ p4) in
          let pID := set_ChildSubnet (default Prefix_zero r) pID in
          if bool_decide (r = None) then mret (pID, Some (InvalidParameterErrorf str))
          else mret (pID, None)
        else mret (pID, None).

(** [String] returns the string form of the SubnetKey object. *)
Definition PoolID_String `{NetipText} (s : PoolID) : string :=
  if bool_decide (ChildSubnet (key s) = Prefix_zero)
  then AddressSpace s +:+ "/" +:+ Prefix_String (Subnet (key s))
  else AddressSpace s +:+ "/" +:+ Prefix_String (Subnet (key s))
       +:+ "/" +:+ Prefix_String (ChildSubnet (key s)).

(** [subnetCapacity] returns the number of IP addresses in the given subnet. *)
Definition subnetCapacity (subnet : Prefix) : Uint128 :=
  let capacity := From64 1 in
  let hostBits := wrap_u64 (BitLen (Prefix_Addr subnet) - Bits subnet) in
  Lsh capacity hostBits.

(** The loop of [capacityRange] over the children, visited in the order
    [order]. *)
Definition sum_capacity (order : list Prefix) (capacity : Uint128) : exec Uint128 :=
  foldl (fun acc child => capacity ← acc; Add capacity (subnetCapacity child))
        (Ret capacity) order.

(** [capacityRange], with the order in which [range] visits the map made
    explicit: Go leaves it unspecified, so [order] is any enumeration of the
    children. *)
Definition capacityRange_in (order : list Prefix) (p : PoolData) : exec Uint128 :=
  if bool_decide (size (children p) = 0%nat)
  then mret (subnetCapacity (Pool (addrs p)))
  else sum_capacity order Zero.

Definition capacityRange (p : PoolData) : exec Uint128 :=
  capacityRange_in (elements (children p)) p.

(** The number the capacities of a list of prefixes add up to. *)
Definition capacity_sum (l : list Prefix) : Z :=
  foldr (fun child s => to_Z (subnetCapacity child) + s) 0 l.

(** [AvailableAddrs] returns [(availableSubnet, availableRange)]. *)
Definition AvailableAddrs (p : PoolData) : Z * Z :=
  let availableSubnet := Unselected (addrs p) in
  let availableRange :=
    if 0 <? Cmp (availableRange p) (New 0 1) then MaxUint64
    else Lo (availableRange p) in
  let availableSubnet := Unselected (addrs p) in
  (availableSubnet, availableRange).

(** ** The merge iterator *)

Module MergeIter.

(** [mergeIter] is used to iterate on both 'a' and 'b' at the same time while
    maintaining the total order that would arise if both were merged and
    then sorted.  Both 'a' and 'b' have to be sorted beforehand. *)
Record mergeIter : Type := mkIter {
  a : list Prefix;
  b : list Prefix;
  ia : Z;
  ib : Z;
  cmp : Prefix -> Prefix -> Z;
  lastA : bool
}.

Definition set_ia (v : Z) (it : mergeIter) : mergeIter :=
  mkIter (a it) (b it) v (ib it) (cmp it) (lastA it).
Definition set_ib (v : Z) (it : mergeIter) : mergeIter :=
  mkIter (a it) (b it) (ia it) v (cmp it) (lastA it).
Definition set_lastA (v : bool) (it : mergeIter) : mergeIter :=
  mkIter (a it) (b it) (ia it) (ib it) (cmp it) v.

(** [nextA]; the conjunctions are evaluated left to right and stop at the
    first false operand, so the slices are only read under the bounds
    checks that precede the comparison. *)
Definition nextA (it : mergeIter) : exec bool :=
  first ← (if (ia it <? len (a it)) && (ib it <? len (b it)) then
             x ← index (a it) (ia it);
             y ← index (b it) (ib it);
             mret (cmp it x y <=? 0)
           else mret false);
  if first : bool then mret true
  else if (ia it <? len (a it)) && (len (b it) <=? ib it) then mret true
  else mret false.

Definition newMergeIter (a b : list Prefix) (cmp : Prefix -> Prefix -> Z) : exec mergeIter :=
  let iter := mkIter a b 0 0 cmp false in
  l ← nextA iter;
  mret (set_lastA l iter).

Definition Get (it : mergeIter) : exec Prefix :=
  if wrap_int (len (a it) + len (b it)) <=? wrap_int (ia it + ib it) then mret Prefix_zero
  else if lastA it then index (a it) (ia it)
  else index (b it) (ib it).

Definition Inc (it : mergeIter) : exec mergeIter :=
  let it := if lastA it then set_ia (wrap_int (ia it + 1)) it
            else set_ib (wrap_int (ib it + 1)) it in
  l ← nextA it;
  mret (set_lastA l it).

(** A caller's calls on one iterator, in order; the results of the [Get]
    calls are collected. *)
Inductive call : Type :=
| CallGet
| CallInc.

#[global] Instance call_eq_dec : EqDecision call.
Proof. solve_decision. Defined.

Fixpoint run (cs : list call) (it : mergeIter) : exec (mergeIter * list Prefix) :=
  match cs with
  | [] => mret (it, [])
  | CallGet :: cs' =>
      p ← Get it;
      r ← run cs' it;
      mret (r.1, p :: r.2)
  | CallInc :: cs' =>
      it' ← Inc it;
      run cs' it'
  end.

(** The iterator after [n] calls of [Inc]. *)
Definition Inc_n (n : N) (it : mergeIter) : exec mergeIter :=
  N.iter n (fun r => it' ← r; Inc it') (Ret it).

(** Modelled from the spec: the walk of a caller, "walking Get/Advance
    until Get returns the empty sentinel".  The loop calls [Get], and while
    the result is not the zero prefix emits it and calls [Inc]; [fuel]
    bounds the number of iterations. *)
Fixpoint walk_loop (fuel : nat) (it : mergeIter) : exec (list Prefix) :=
  match fuel with
  | O => OutOfFuel
  | S fuel' =>
      p ← Get it;
      if bool_decide (p = Prefix_zero) then mret []
      else
        it' ← Inc it;
        rest ← walk_loop fuel' it';
        mret (p :: rest)
  end.

Definition walk (fuel : nat) (a b : list Prefix) (cmp : Prefix -> Prefix -> Z)
  : exec (list Prefix) :=
  it ← newMergeIter a b cmp;
  walk_loop fuel it.

(** The merge the iterator is meant to enumerate, written as the spec words
    it: the next element of [a] is taken whenever it is not greater than the
    next element of [b] (ties included), the next element of [b] when it is
    strictly less or [a] is exhausted. *)
Fixpoint merge_spec (cmp : Prefix -> Prefix -> Z) (a : list Prefix) : list Prefix -> list Prefix :=
  fix merge_b (b : list Prefix) : list Prefix :=
    match a, b with
    | [], _ => b
    | _, [] => a
    | x :: a', y :: b' =>
        if cmp x y <=? 0 then x :: merge_spec cmp a' b
        else y :: merge_b b'
    end.

(** The part of a walk before the first zero prefix. *)
Fixpoint until_zero (l : list Prefix) : list Prefix :=
  match l with
  | [] => []
  | p :: l' => if bool_decide (p = Prefix_zero) then [] else p :: until_zero l'
  end.

(** The choice [nextA] makes with the cursors at [i] and [j]. *)
Definition next_is_a (cmp : Prefix -> Prefix -> Z) (a b : list Prefix) (i j : nat) : bool :=
  match a !! i, b !! j with
  | Some x, Some y => cmp x y <=? 0
  | Some _, None => true
  | None, _ => false
  end.

(** The element under the cursors, if one of the slices has one left. *)
Definition current (cmp : Prefix -> Prefix -> Z) (a b : list Prefix) (i j : nat)
  : option Prefix :=
  match a !! i, b !! j with
  | Some x, Some y => Some (if cmp x y <=? 0 then x else y)
  | Some x, None => Some x
  | None, Some y => Some y
  | None, None => None
  end.

(** The cursors after [k] calls of [Inc] on a fresh iterator. *)
Fixpoint cursors (cmp : Prefix -> Prefix -> Z) (a b : list Prefix) (k : nat) : nat * nat :=
  match k with
  | O => (O, O)
  | S k' =>
      let c := cursors cmp a b k' in
      if next_is_a cmp a b c.1 c.2 then (S c.1, c.2) else (c.1, S c.2)
  end.

(** The iterator with its cursors at [i] and [j]. *)
Definition iter_at (cmp : Prefix -> Prefix -> Z) (a b : list Prefix) (i j : nat) : mergeIter :=
  mkIter a b (Z.of_nat i) (Z.of_nat j) cmp (next_is_a cmp a b i j).

(** Cursors a walk can be at: within the slices, the one of [b] possibly
    past its end once [a] is used up. *)
Definition cursors_within (a b : list Prefix) (i j : nat) : Prop :=
  (i <= length a)%nat /\ ((i < length a)%nat -> (j <= length b)%nat).

(** "Not greater than" under a comparator, the order of a sorted slice. *)
Definition cmp_le (cmp : Prefix -> Prefix -> Z) (x y : Prefix) : Prop := cmp x y <= 0.

(** The number of [Inc] among some calls. *)
Definition count_Inc (cs : list call) : nat :=
  length (filter (fun c => c = CallInc) cs).

End MergeIter.

(** Modelled from the spec: the comparator that callers supply, "ordering by
    base address, then by prefix length" ([Addr.Compare] orders by address
    family first). *)
Definition Addr_Compare (x y : Addr) : Z :=
  if BitLen x <? BitLen y then -1
  else if BitLen y <? BitLen x then 1
  else if Hi (addr x) <? Hi (addr y) then -1
  else if Hi (addr y) <? Hi (addr x) then 1
  else if Lo (addr x) <? Lo (addr y) then -1
  else if Lo (addr y) <? Lo (addr x) then 1
  else 0.

Definition PrefixCompare (x y : Prefix) : Z :=
  let c := Addr_Compare (Prefix_Addr x) (Prefix_Addr y) in
  if bool_decide (c <> 0) then c else Bits x - Bits y.

(** ** Concrete prefixes used in the examples *)

Definition p_10_0_0_0_24 : Prefix := PrefixFrom (AddrFrom4 10 0 0 0) 24.
Definition p_10_0_1_0_24 : Prefix := PrefixFrom (AddrFrom4 10 0 1 0) 24.
Definition p_10_0_2_0_24 : Prefix := PrefixFrom (AddrFrom4 10 0 2 0) 24.
Definition p_10_0_0_0_32 : Prefix := PrefixFrom (AddrFrom4 10 0 0 0) 32.
Definition p_10_0_0_0_25 : Prefix := PrefixFrom (AddrFrom4 10 0 0 0) 25.
Definition p_10_0_1_0_25 : Prefix := PrefixFrom (AddrFrom4 10 0 1 0) 25.
Definition p_10_0_0_0_23 : Prefix := PrefixFrom (AddrFrom4 10 0 0 0) 23.
(** [::/0], [::1/128], [::/1], [8000::/1] and [2001:db8::/64]. *)
Definition p6_any_0 : Prefix := PrefixFrom (AddrFrom16 0 0) 0.
Definition p6_loopback_128 : Prefix := PrefixFrom (AddrFrom16 0 1) 128.
Definition p6_low_half : Prefix := PrefixFrom (AddrFrom16 0 0) 1.
Definition p6_high_half : Prefix := PrefixFrom (AddrFrom16 0x8000000000000000 0) 1.
Definition p6_2001_db8_64 : Prefix := PrefixFrom (AddrFrom16 0x20010db800000000 0) 64.

(** * Properties *)

(** ** Outcomes *)

Lemma exec_bind_ret {A B : Type} (f : A -> exec B) (x : A) : (Ret x ≫= f) = f x.
Proof. reflexivity. Qed.

Lemma exec_bind_panics {A B : Type} (f : A -> exec B) (p : panic) :
  (Panics p ≫= f) = Panics p.
Proof. reflexivity. Qed.

Lemma exec_bind_inv {A B : Type} (f : A -> exec B) (m : exec A) (y : B) :
  (m ≫= f) = Ret y -> exists x, m = Ret x /\ f x = Ret y.
Proof. destruct m as [x| |]; [exists x; split; [reflexivity|assumption] | discriminate ..]. Qed.

(** ** Machine integers *)

Lemma wrap_int_id (z : Z) : min_int <= z <= max_int -> wrap_int z = z.
Proof.
  unfold min_int, max_int, wrap_int. intros Hz.
  rewrite Z.mod_small; lia.
Qed.

Lemma wrap_u64_id (z : Z) : is_u64 z -> wrap_u64 z = z.
Proof. unfold is_u64, wrap_u64. intros Hz. apply Z.mod_small; lia. Qed.

Lemma wrap_u64_is_u64 (z : Z) : is_u64 (wrap_u64 z).
Proof. unfold is_u64, wrap_u64. apply Z.mod_pos_bound. lia. Qed.

Lemma len_nonneg {A : Type} (s : list A) : 0 <= len s.
Proof. unfold len. lia. Qed.

Lemma len_cons {A : Type} (x : A) (s : list A) : len (x :: s) = len s + 1.
Proof. unfold len. simpl. lia. Qed.

Lemma index_lookup {A : Type} (s : list A) (i : nat) (x : A) :
  s !! i = Some x -> index s (Z.of_nat i) = Ret x.
Proof.
  intros Hx. unfold index. pose proof (lookup_lt_Some _ _ _ Hx) as Hlt.
  rewrite bool_decide_true by (unfold len; lia).
  by rewrite Nat2Z.id, Hx.
Qed.

Lemma index_at {A : Type} (s : list A) (i : Z) (x : A) :
  0 <= i -> s !! Z.to_nat i = Some x -> index s i = Ret x.
Proof.
  intros Hi Hx. rewrite <- (Z2Nat.id i) by done. by apply index_lookup.
Qed.

Lemma index_out_of_range {A : Type} (s : list A) (i : Z) :
  ~ (0 <= i < len s) -> index s i = Panics IndexOutOfRange.
Proof. intros Hi. unfold index. by rewrite bool_decide_false. Qed.

Lemma index_in_range {A : Type} (s : list A) (i : Z) :
  0 <= i < len s -> exists x, index s i = Ret x /\ s !! Z.to_nat i = Some x.
Proof.
  intros Hi. unfold index. rewrite bool_decide_true by done.
  destruct (lookup_lt_is_Some_2 s (Z.to_nat i)) as [x Hx]; [unfold len in Hi; lia|].
  exists x. by rewrite Hx.
Qed.

(** ** 128-bit counters *)

Lemma to_Z_bounds (u : Uint128) : wf u -> 0 <= to_Z u < 2 ^ 128.
Proof.
  unfold wf, is_u64, to_Z. intros [Hlo Hhi].
  change (2 ^ 128) with (2 ^ 64 * 2 ^ 64). nia.
Qed.

Lemma of_Z_wf (x : Z) : wf (of_Z x).
Proof. split; apply wrap_u64_is_u64. Qed.

Lemma to_Z_of_Z (x : Z) : 0 <= x < 2 ^ 128 -> to_Z (of_Z x) = x.
Proof.
  intros Hx. unfold to_Z, of_Z. simpl.
  rewrite (Z.mod_small (x / 2 ^ 64)).
  - pose proof (Z.div_mod x (2 ^ 64)). lia.
  - split; [apply Z.div_pos; lia|].
    apply Z.div_lt_upper_bound; [lia|]. change (2 ^ 64 * 2 ^ 64) with (2 ^ 128). lia.
Qed.

Lemma of_Z_to_Z (u : Uint128) : wf u -> of_Z (to_Z u) = u.
Proof.
  destruct u as [lo hi]. unfold wf, is_u64, of_Z, to_Z. simpl. intros [Hlo Hhi].
  f_equal.
  - rewrite Z.add_comm, Z.mod_add by lia. apply Z.mod_small. lia.
  - rewrite Z.add_comm, Z.div_add by lia. rewrite (Z.div_small lo) by lia.
    apply Z.mod_small. lia.
Qed.

Lemma to_Z_inj (u v : Uint128) : wf u -> wf v -> to_Z u = to_Z v -> u = v.
Proof. intros Hu Hv E. rewrite <- (of_Z_to_Z u), <- (of_Z_to_Z v) by done. by rewrite E. Qed.

(** [Add] is the exact sum while it fits, and a panic from there on. *)
Lemma Add_spec (u v : Uint128) :
  wf u -> wf v ->
  Add u v = if to_Z u + to_Z v <? 2 ^ 128 then Ret (of_Z (to_Z u + to_Z v))
            else Panics Overflow.
Proof.
  destruct u as [ul uh], v as [vl vh].
  unfold wf, is_u64, Add, Add64, wrap_u64, to_Z, of_Z. simpl. intros [Hul Huh] [Hvl Hvh].
  rewrite !Z.add_0_r.
  assert (Hs : uh * 2 ^ 64 + ul + (vh * 2 ^ 64 + vl) = (ul + vl) + (uh + vh) * 2 ^ 64) by lia.
  rewrite Hs, Z.mod_add, Z.div_add by lia.
  replace (uh + vh + (ul + vl) / 2 ^ 64) with ((ul + vl) / 2 ^ 64 + (uh + vh)) by lia.
  set (c := (ul + vl) / 2 ^ 64).
  assert (Hc : 0 <= c <= 1).
  { unfold c. split; [apply Z.div_pos; lia|].
    apply Z.lt_succ_r. apply Z.div_lt_upper_bound; lia. }
  assert (Hdm : ul + vl = 2 ^ 64 * c + (ul + vl) `mod` 2 ^ 64) by (apply Z.div_mod; lia).
  pose proof (Z.mod_pos_bound (ul + vl) (2 ^ 64) ltac:(lia)) as Hm.
  destruct (Z.ltb_spec (ul + vl + (uh + vh) * 2 ^ 64) (2 ^ 128)) as [Hlt|Hge].
  - assert (Hsm : c + (uh + vh) < 2 ^ 64).
    { change (2 ^ 128) with (2 ^ 64 * 2 ^ 64) in Hlt. nia. }
    rewrite (Z.div_small (c + (uh + vh))) by lia.
    rewrite bool_decide_false by lia. reflexivity.
  - assert (Hsm : 2 ^ 64 <= c + (uh + vh)).
    { change (2 ^ 128) with (2 ^ 64 * 2 ^ 64) in Hge. nia. }
    rewrite bool_decide_true; [reflexivity|].
    intros E. apply Z.div_small_iff in E; lia.
Qed.

(** [Lsh] of the counter 1: the power of two, reduced to 128 bits. *)
Lemma Lsh_one (n : Z) :
  0 <= n -> Lsh (From64 1) n = of_Z (2 ^ n `mod` 2 ^ 128).
Proof.
  intros Hn. unfold Lsh, From64, shl64, shr64, wrap_u64, of_Z. simpl.
  rewrite Z.shiftl_0_l, Zmod_0_l, Z.lor_0_l.
  destruct (Z.ltb_spec 64 n) as [Hbig|Hsmall].
  - rewrite Z.shiftl_1_l.
    replace (2 ^ n) with (2 ^ (n - 64) * 2 ^ 64) by (rewrite <- Z.pow_add_r by lia; f_equal; lia).
    change (2 ^ 128) with (2 ^ 64 * 2 ^ 64).
    rewrite Z.mul_mod_distr_r by lia.
    rewrite Z.mod_mul, Z.div_mul by lia.
    by rewrite Z.mod_mod by lia.
  - rewrite Z.shiftl_1_l, Z.shiftr_div_pow2 by lia.
    rewrite (Z.mod_small (2 ^ n) (2 ^ 128)).
    2:{ split; [lia|]. apply Z.pow_lt_mono_r; lia. }
    f_equal.
    destruct (decide (n = 64)) as [->|Hne]; [reflexivity|].
    rewrite (Z.div_small (2 ^ n)), (Z.div_small 1); [reflexivity| |].
    + split; [lia|]. apply (Z.pow_lt_mono_r 2 0); lia.
    + split; [lia|]. apply Z.pow_lt_mono_r; lia.
Qed.

Lemma subnetCapacity_wf (p : Prefix) : wf (subnetCapacity p).
Proof.
  unfold subnetCapacity. rewrite Lsh_one; [apply of_Z_wf|].
  unfold wrap_u64. apply Z.mod_pos_bound. lia.
Qed.

Lemma ValidPrefix_bits (p : Prefix) :
  ValidPrefix p -> 0 <= Bits p <= BitLen (Prefix_Addr p) /\
                   (BitLen (Prefix_Addr p) = 32 \/ BitLen (Prefix_Addr p) = 128).
Proof.
  intros [[_ [H0|[Hz Hb]]] Hv]; unfold IsValid, Bits, Prefix_Addr, BitLen in *.
  - rewrite H0 in Hv. discriminate.
  - destruct Hz as [Hz|Hz]; rewrite Hz in *; lia.
Qed.

(** The capacity of a valid prefix is two to the number of its host bits,
    as long as that number is below 128. *)
Lemma subnetCapacity_pow2 (p : Prefix) :
  ValidPrefix p ->
  BitLen (Prefix_Addr p) - Bits p < 128 ->
  to_Z (subnetCapacity p) = 2 ^ (BitLen (Prefix_Addr p) - Bits p).
Proof.
  intros Hp Hh. destruct (ValidPrefix_bits p Hp) as [Hb Hl].
  unfold subnetCapacity. rewrite wrap_u64_id by (unfold is_u64; lia).
  rewrite Lsh_one by lia.
  assert (0 <= 2 ^ (BitLen (Prefix_Addr p) - Bits p) < 2 ^ 128).
  { split; [lia|]. apply Z.pow_lt_mono_r; lia. }
  rewrite Z.mod_small by done. by apply to_Z_of_Z.
Qed.

(** With 128 host bits the shift leaves nothing. *)
Lemma subnetCapacity_128_host_bits (p : Prefix) :
  ValidPrefix p ->
  BitLen (Prefix_Addr p) - Bits p = 128 ->
  subnetCapacity p = Zero.
Proof.
  intros Hp Hh. unfold subnetCapacity. rewrite Hh. reflexivity.
Qed.

Lemma Cmp_pos (u v : Uint128) :
  wf u -> wf v -> (0 <? Cmp u v) = (to_Z v <? to_Z u).
Proof.
  intros Hu Hv. unfold Cmp. case_bool_decide as E.
  - subst. symmetry. apply Z.ltb_irrefl.
  - assert (Hne : to_Z u <> to_Z v) by (intros Heq; apply E; by apply to_Z_inj).
    destruct u as [ul uh], v as [vl vh].
    unfold wf, is_u64, to_Z in *. simpl in *.
    destruct Hu as [Hul Huh], Hv as [Hvl Hvh].
    destruct (Z.ltb_spec uh vh); simpl.
    + symmetry. apply Z.ltb_ge. nia.
    + destruct (Z.eqb_spec uh vh); simpl.
      * subst. destruct (Z.ltb_spec ul vl); simpl; symmetry;
          [apply Z.ltb_ge|apply Z.ltb_lt]; lia.
      * symmetry. apply Z.ltb_lt. nia.
Qed.

(** ** The availability report *)

(** Away from the value 2^64 itself the reported range is the cached one,
    capped at the 64-bit maximum. *)
Lemma AvailableAddrs_saturates (p : PoolData) :
  wf (availableRange p) ->
  to_Z (availableRange p) <> 2 ^ 64 ->
  (AvailableAddrs p).2 = Z.min (to_Z (availableRange p)) MaxUint64.
Proof.
  intros Hwf Hne. unfold AvailableAddrs. simpl.
  rewrite Cmp_pos by (done || (split; unfold is_u64; simpl; lia)).
  change (to_Z (New 0 1)) with (2 ^ 64).
  destruct (availableRange p) as [lo hi].
  unfold wf, is_u64, to_Z, MaxUint64 in *. simpl in *.
  destruct (Z.ltb_spec (2 ^ 64) (hi * 2 ^ 64 + lo)); lia.
Qed.

Lemma AvailableAddrs_two_pow_70 (s : AddrSet) (ch : gset Prefix) (rel : bool) :
  to_Z (New 0 64) = 2 ^ 70 /\
  (AvailableAddrs (mkPoolData s ch (New 0 64) rel)).2 = MaxUint64.
Proof. split; reflexivity. Qed.

(** C1 (the code at the value that breaks the claim): a pool whose cached
    available range is exactly 2^64, one more than the 64-bit maximum,
    reports an available range of 0 instead of the maximum.  The comparison
    in [AvailableAddrs] is against 2^64 and strict, so this one value is not
    capped and its low word, 0, is returned. *)
Theorem AvailableAddrs_two_pow_64_reports_zero (s : AddrSet) (ch : gset Prefix) (rel : bool) :
  let p := mkPoolData s ch (New 0 1) rel in
  wf (availableRange p) /\
  to_Z (availableRange p) = 2 ^ 64 /\
  MaxUint64 < to_Z (availableRange p) /\
  (AvailableAddrs p).2 = 0.
Proof.
  simpl. repeat split; unfold is_u64; simpl; lia.
Qed.

(** ** Capacity *)

Lemma lor_bound (x y n : Z) :
  0 <= n -> 0 <= x < 2 ^ n -> 0 <= y < 2 ^ n -> 0 <= Z.lor x y < 2 ^ n.
Proof.
  intros Hn Hx Hy. split; [apply Z.lor_nonneg; lia|].
  destruct (decide (Z.lor x y = 0)) as [->|Hnz]; [lia|].
  apply Z.log2_lt_pow2; [pose proof (Z.lor_nonneg x y); lia|].
  rewrite Z.log2_lor by lia.
  destruct (decide (x = 0)) as [->|Hx0]; destruct (decide (y = 0)) as [->|Hy0].
  - simpl in Hnz. done.
  - rewrite Z.max_r by (simpl; apply Z.log2_nonneg). apply Z.log2_lt_pow2; lia.
  - rewrite Z.max_l by (simpl; apply Z.log2_nonneg). apply Z.log2_lt_pow2; lia.
  - apply Z.max_lub_lt; apply Z.log2_lt_pow2; lia.
Qed.

(** The mapped-address mark [0xffff00000000] and a 32-bit value have no bit
    in common. *)
Lemma lor_mapped_mark (v : Z) :
  0 <= v < 2 ^ 32 -> Z.lor 0xffff00000000 v = 0xffff00000000 + v.
Proof.
  intros Hv. rewrite <- Z.add_lor_land.
  assert (Hland : Z.land 0xffff00000000 v = 0); [|lia].
  apply Z.bits_inj'. intros n Hn. rewrite Z.land_spec, Z.bits_0.
  destruct (Z.lt_ge_cases n 32) as [Hlow|Hhigh].
  - change 0xffff00000000 with (Z.shiftl 0xffff 32).
    by rewrite Z.shiftl_spec_low.
  - assert (Hbit : Z.testbit v n = false); [|by rewrite Hbit, andb_false_r].
    apply Z.testbit_false; [done|].
    rewrite Z.div_small; [done|]. split; [lia|].
    apply Z.lt_le_trans with (2 ^ 32); [lia|]. apply Z.pow_le_mono_r; lia.
Qed.

Lemma Addr_wf_AddrFrom4 (a b c d : Z) :
  0 <= a < 256 -> 0 <= b < 256 -> 0 <= c < 256 -> 0 <= d < 256 ->
  Addr_wf (AddrFrom4 a b c d).
Proof.
  intros Ha Hb Hc Hd.
  assert (Hv : 0 <= Z.lor (Z.shiftl a 24) (Z.lor (Z.shiftl b 16) (Z.lor (Z.shiftl c 8) d))
               < 2 ^ 32).
  { assert (Hc' : 0 <= Z.shiftl c 8 < 2 ^ 32) by (rewrite Z.shiftl_mul_pow2 by lia; lia).
    assert (Hb' : 0 <= Z.shiftl b 16 < 2 ^ 32) by (rewrite Z.shiftl_mul_pow2 by lia; lia).
    assert (Ha' : 0 <= Z.shiftl a 24 < 2 ^ 32) by (rewrite Z.shiftl_mul_pow2 by lia; lia).
    repeat apply lor_bound; lia. }
  unfold Addr_wf, AddrFrom4, wf, is_u64. simpl.
  rewrite lor_mapped_mark by done. lia.
Qed.

Lemma ValidPrefix_PrefixFrom4 (a b c d bits : Z) :
  0 <= a < 256 -> 0 <= b < 256 -> 0 <= c < 256 -> 0 <= d < 256 -> 0 <= bits <= 32 ->
  ValidPrefix (PrefixFrom (AddrFrom4 a b c d) bits).
Proof.
  intros Ha Hb Hc Hd Hbits.
  unfold ValidPrefix, Prefix_wf, PrefixFrom, IsValid.
  change (withoutZone (AddrFrom4 a b c d)) with (AddrFrom4 a b c d).
  change (BitLen (AddrFrom4 a b c d)) with 32.
  rewrite bool_decide_false by discriminate. simpl negb.
  destruct (Z.leb_spec 0 bits); [|lia]. destruct (Z.leb_spec bits 32); [|lia].
  simpl andb. cbv iota. simpl ip. simpl bitsPlusOne.
  split; [split|].
  - by apply Addr_wf_AddrFrom4.
  - right. split; [by left|]. change (BitLen (AddrFrom4 a b c d)) with 32. lia.
  - apply Z.ltb_lt. lia.
Qed.

Lemma ValidPrefix_PrefixFrom16 (hi lo bits : Z) :
  is_u64 hi -> is_u64 lo -> 0 <= bits <= 128 ->
  ValidPrefix (PrefixFrom (AddrFrom16 hi lo) bits).
Proof.
  intros Hhi Hlo Hbits.
  unfold ValidPrefix, Prefix_wf, PrefixFrom, IsValid.
  change (withoutZone (AddrFrom16 hi lo)) with (AddrFrom16 hi lo).
  change (BitLen (AddrFrom16 hi lo)) with 128.
  rewrite bool_decide_false by discriminate. simpl.
  destruct (Z.leb_spec 0 bits); [|lia]. destruct (Z.leb_spec bits 128); [|lia]. simpl.
  split; [split|].
  - unfold Addr_wf, wf. simpl. done.
  - right. split; [by right|]. change (BitLen (AddrFrom16 hi lo)) with 128. lia.
  - apply Z.ltb_lt. lia.
Qed.

(** The values the spec lists for [10.0.0.0/24], [10.0.0.0/32] and
    [::1/128]. *)
Lemma subnetCapacity_examples :
  subnetCapacity p_10_0_0_0_24 = From64 256 /\
  subnetCapacity p_10_0_0_0_32 = From64 1 /\
  subnetCapacity p6_loopback_128 = From64 1.
Proof. repeat split; reflexivity. Qed.

(** C3 (the code at the input that breaks the claim): [::/0] is a valid
    IPv6 prefix with 128 host bits, and [subnetCapacity] returns the
    counter 0 for it, not 2^128: the shift by 128 moves the single set bit
    out of the 128-bit value. *)
Theorem subnetCapacity_ipv6_any_is_zero :
  ValidPrefix p6_any_0 /\
  BitLen (Prefix_Addr p6_any_0) - Bits p6_any_0 = 128 /\
  subnetCapacity p6_any_0 = Zero /\
  to_Z (subnetCapacity p6_any_0) <> 2 ^ 128.
Proof.
  split; [apply ValidPrefix_PrefixFrom16; unfold is_u64; lia|].
  repeat split. discriminate.
Qed.

Lemma capacity_sum_nonneg (l : list Prefix) : 0 <= capacity_sum l.
Proof.
  induction l as [|c l IH]; simpl; [lia|].
  pose proof (to_Z_bounds _ (subnetCapacity_wf c)). lia.
Qed.

Lemma capacity_sum_perm (l k : list Prefix) : l ≡ₚ k -> capacity_sum l = capacity_sum k.
Proof. induction 1; simpl; lia. Qed.

Lemma sum_capacity_panics (l : list Prefix) (e : panic) :
  foldl (fun acc child => capacity ← acc; Add capacity (subnetCapacity child))
        (Panics e) l = Panics e.
Proof. induction l as [|c l IH]; simpl; [reflexivity|apply IH]. Qed.

(** The loop adds up the capacities exactly, and panics as soon as the
    running sum leaves 128 bits; since every term is non-negative this
    happens exactly when the whole sum does not fit. *)
Lemma sum_capacity_spec (l : list Prefix) (acc : Uint128) :
  wf acc ->
  sum_capacity l acc =
    if to_Z acc + capacity_sum l <? 2 ^ 128
    then Ret (of_Z (to_Z acc + capacity_sum l))
    else Panics Overflow.
Proof.
  unfold sum_capacity. revert acc.
  induction l as [|c l IH]; intros acc Hacc; simpl.
  - pose proof (to_Z_bounds _ Hacc). rewrite Z.add_0_r.
    destruct (Z.ltb_spec (to_Z acc) (2 ^ 128)); [|lia]. by rewrite of_Z_to_Z.
  - pose proof (to_Z_bounds _ Hacc) as Hb.
    pose proof (to_Z_bounds _ (subnetCapacity_wf c)) as Hc.
    pose proof (capacity_sum_nonneg l) as Hl.
    change (Ret acc ≫= _) with (Add acc (subnetCapacity c)).
    rewrite Add_spec by (done || apply subnetCapacity_wf).
    destruct (Z.ltb_spec (to_Z acc + to_Z (subnetCapacity c)) (2 ^ 128)) as [Hlt|Hge].
    + rewrite IH by apply of_Z_wf. rewrite to_Z_of_Z by lia.
      by rewrite Z.add_assoc.
    + rewrite sum_capacity_panics.
      destruct (Z.ltb_spec (to_Z acc + (to_Z (subnetCapacity c) + capacity_sum l)) (2 ^ 128));
        [lia|reflexivity].
Qed.

Lemma capacity_sum_pair (x y : Prefix) :
  x <> y -> capacity_sum (elements ({[x; y]} : gset Prefix)) = capacity_sum [x; y].
Proof.
  intros Hne. apply capacity_sum_perm.
  rewrite elements_union_singleton by set_solver.
  by rewrite elements_singleton.
Qed.

(** C5 (as amended): without children [capacityRange] is the capacity of
    the prefix the address tracker tracks; with children it is the sum of
    the capacities of the children, whatever the order in which the map is
    visited, provided that sum fits 128 bits.  With the children
    [10.0.0.0/25] and [10.0.1.0/25] of the pool [10.0.0.0/23] it is 256, not
    the 512 of the pool. *)
Theorem capacityRange_sum_of_children (p : PoolData) (order : list Prefix) :
  order ≡ₚ elements (children p) ->
  (children p = ∅ -> capacityRange_in order p = Ret (subnetCapacity (Pool (addrs p)))) /\
  (children p <> ∅ -> capacity_sum (elements (children p)) < 2 ^ 128 ->
   capacityRange_in order p = Ret (of_Z (capacity_sum (elements (children p))))) /\
  (forall (ar : Uint128) (rel : bool),
      let q := mkPoolData (mkAddrSet p_10_0_0_0_23 0) {[p_10_0_0_0_25; p_10_0_1_0_25]} ar rel in
      capacityRange q = Ret (From64 256) /\ subnetCapacity (Pool (addrs q)) = From64 512).
Proof.
  intros Hperm. split; [|split].
  - intros He. unfold capacityRange_in. rewrite He, size_empty.
    by rewrite bool_decide_true.
  - intros Hne Hfit. unfold capacityRange_in.
    rewrite bool_decide_false.
    2:{ intros Hs. apply size_empty_inv in Hs. apply Hne. by apply leibniz_equiv. }
    rewrite sum_capacity_spec by (split; unfold is_u64; simpl; lia).
    rewrite (capacity_sum_perm _ _ Hperm). change (to_Z Zero) with 0. rewrite Z.add_0_l.
    destruct (Z.ltb_spec (capacity_sum (elements (children p))) (2 ^ 128)); [done|lia].
  - intros ar rel q. split; [|reflexivity].
    unfold capacityRange, capacityRange_in.
    rewrite bool_decide_false.
    2:{ intros Hs. apply size_empty_inv in Hs. simpl children in Hs. clear -Hs. set_solver. }
    rewrite sum_capacity_spec by (split; unfold is_u64; simpl; lia).
    simpl children. rewrite capacity_sum_pair by discriminate. reflexivity.
Qed.

Lemma capacityRange_sum_of_children_witness :
  let p := mkPoolData (mkAddrSet p_10_0_0_0_23 0) {[p_10_0_0_0_25]} Zero false in
  capacityRange p = Ret (From64 128).
Proof.
  intros p.
  destruct (capacityRange_sum_of_children p (elements (children p))) as (_ & Hsum & _).
  - apply Permutation_refl.
  - unfold capacityRange. rewrite Hsum.
    + simpl children. by rewrite elements_singleton.
    + simpl children. set_solver.
    + simpl children. rewrite elements_singleton. reflexivity.
Defined.

(** C5 (the claim as stated fails): the two halves [::/1] and [8000::/1] of
    the IPv6 space are two children whose capacities, 2^127 each, add up to
    2^128; [Add] panics on that sum, so [capacityRange] returns nothing,
    whatever the order of the visit. *)
Lemma capacityRange_overflow_panics :
  let p := mkPoolData (mkAddrSet p6_any_0 0) {[p6_low_half; p6_high_half]} Zero false in
  children p <> ∅ /\
  capacity_sum (elements (children p)) = 2 ^ 128 /\
  capacityRange p = Panics Overflow /\
  (forall order, order ≡ₚ elements (children p) -> capacityRange_in order p = Panics Overflow).
Proof.
  intros p.
  assert (Hsum : capacity_sum (elements (children p)) = 2 ^ 128).
  { simpl children. rewrite capacity_sum_pair by discriminate. reflexivity. }
  assert (Hany : forall order, order ≡ₚ elements (children p) ->
                               capacityRange_in order p = Panics Overflow).
  { intros order Hperm. unfold capacityRange_in.
    rewrite bool_decide_false.
    2:{ intros Hs. apply size_empty_inv in Hs. simpl children in Hs. clear -Hs. set_solver. }
    rewrite sum_capacity_spec by (split; unfold is_u64; simpl; lia).
    rewrite (capacity_sum_perm _ _ Hperm), Hsum. reflexivity. }
  split; [clear; simpl children; set_solver|]. split; [done|]. split; [|done].
  apply Hany, Permutation_refl.
Qed.

(** ** Splitting and joining strings *)

Lemma append_cons (c : ascii) (s t : string) : String c s +:+ t = String c (s +:+ t).
Proof. reflexivity. Qed.

Lemma append_nil_l (t : string) : "" +:+ t = t.
Proof. reflexivity. Qed.

Lemma Split_not_nil (sep : ascii) (s : string) : Split sep s <> [].
Proof.
  destruct s as [|c s]; simpl; [done|].
  case_decide; [done|]. by destruct (Split sep s).
Qed.

Lemma Split_no_sep (sep : ascii) (s : string) :
  contains sep s = false -> Split sep s = [s].
Proof.
  induction s as [|c s IH]; simpl; [done|].
  intros Hc. apply orb_false_iff in Hc as [Hc Hs].
  apply bool_decide_eq_false in Hc.
  rewrite decide_False by done. by rewrite IH.
Qed.

Lemma Split_app (sep : ascii) (s t : string) :
  contains sep s = false ->
  Split sep (s +:+ String sep t) = s :: Split sep t.
Proof.
  induction s as [|c s IH]; simpl.
  - intros _. by rewrite decide_True.
  - intros Hc. apply orb_false_iff in Hc as [Hc Hs].
    apply bool_decide_eq_false in Hc.
    rewrite decide_False by done. by rewrite IH.
Qed.

Lemma append_sep_not_empty (s t : string) (c : ascii) : s +:+ String c t <> "".
Proof. by destruct s. Qed.

Lemma append_assoc (s t u : string) : (s +:+ t) +:+ u = s +:+ (t +:+ u).
Proof.
  induction s as [|c s IH]; [done|].
  rewrite !append_cons. f_equal. exact IH.
Qed.

(** ** Pool identifiers *)

Section PoolID_text.

Context `{NetipText}.

(** The result of [PoolIDFromString] on an input that splits into three
    segments, and on one that splits into five. *)
Lemma PoolIDFromString_3 (str p0 p1 p2 : string) :
  str <> "" -> Split "/" str = [p0; p1; p2] ->
  PoolIDFromString str =
    match ParsePrefix (p1 +:+ "/" +:+ p2) with
    | Some q => Ret (mkPoolID p0 (mkSubnetKey q Prefix_zero), None)
    | None => Ret (mkPoolID p0 (mkSubnetKey Prefix_zero Prefix_zero),
                   Some (InvalidParameterErrorf str))
    end.
Proof.
  intros Hne Hsplit. unfold PoolIDFromString.
  rewrite bool_decide_false by done. rewrite Hsplit.
  change (len [p0; p1; p2]) with 3.
  rewrite (bool_decide_false (3 <> 3)) by lia.
  rewrite (bool_decide_false (3 = 5)) by lia.
  rewrite andb_false_l.
  rewrite (index_at [p0; p1; p2] 0 p0 ltac:(lia) eq_refl), exec_bind_ret.
  rewrite (index_at [p0; p1; p2] 1 p1 ltac:(lia) eq_refl), exec_bind_ret.
  rewrite (index_at [p0; p1; p2] 2 p2 ltac:(lia) eq_refl), exec_bind_ret.
  destruct (ParsePrefix (p1 +:+ "/" +:+ p2)) as [q|].
  - by rewrite bool_decide_false.
  - by rewrite bool_decide_true.
Qed.

Lemma PoolIDFromString_5 (str p0 p1 p2 p3 p4 : string) :
  str <> "" -> Split "/" str = [p0; p1; p2; p3; p4] ->
  PoolIDFromString str =
    match ParsePrefix (p1 +:+ "/" +:+ p2) with
    | Some q =>
        match ParsePrefix (p3 +:+ "/" +:+ p4) with
        | Some q' => Ret (mkPoolID p0 (mkSubnetKey q q'), None)
        | None => Ret (mkPoolID p0 (mkSubnetKey q Prefix_zero),
                       Some (InvalidParameterErrorf str))
        end
    | None => Ret (mkPoolID p0 (mkSubnetKey Prefix_zero Prefix_zero),
                   Some (InvalidParameterErrorf str))
    end.
Proof.
  intros Hne Hsplit. unfold PoolIDFromString.
  rewrite bool_decide_false by done. rewrite Hsplit.
  change (len [p0; p1; p2; p3; p4]) with 5.
  rewrite (bool_decide_false (5 <> 5)) by lia.
  rewrite (bool_decide_true (5 = 5)) by lia.
  rewrite andb_false_r.
  rewrite (index_at [p0; p1; p2; p3; p4] 0 p0 ltac:(lia) eq_refl), exec_bind_ret.
  rewrite (index_at [p0; p1; p2; p3; p4] 1 p1 ltac:(lia) eq_refl), exec_bind_ret.
  rewrite (index_at [p0; p1; p2; p3; p4] 2 p2 ltac:(lia) eq_refl), exec_bind_ret.
  destruct (ParsePrefix (p1 +:+ "/" +:+ p2)) as [q|].
  - rewrite bool_decide_false by done.
    rewrite (index_at [p0; p1; p2; p3; p4] 3 p3 ltac:(lia) eq_refl), exec_bind_ret.
    rewrite (index_at [p0; p1; p2; p3; p4] 4 p4 ltac:(lia) eq_refl), exec_bind_ret.
    destruct (ParsePrefix (p3 +:+ "/" +:+ p4)) as [q'|].
    + by rewrite bool_decide_false.
    + by rewrite bool_decide_true.
  - by rewrite bool_decide_true.
Qed.

Lemma PoolIDFromString_other (str : string) :
  str = "" \/ (len (Split "/" str) <> 3 /\ len (Split "/" str) <> 5) ->
  PoolIDFromString str = Ret (PoolID_zero, Some (InvalidParameterErrorf str)).
Proof.
  intros Hcase. unfold PoolIDFromString.
  case_bool_decide as Hempty; [done|].
  destruct Hcase as [?|[H3 H5]]; [done|].
  rewrite (bool_decide_true _ H3), (bool_decide_true _ H5). reflexivity.
Qed.

Lemma PoolIDFromString_cases (str : string) :
  exists (pID : PoolID) (r : option error),
    PoolIDFromString str = Ret (pID, r) /\
    (r = None \/ r = Some (InvalidParameterErrorf str)) /\
    (r <> None <->
     str = "" \/
     (len (Split "/" str) <> 3 /\ len (Split "/" str) <> 5) \/
     (exists p0 p1 p2 rest, Split "/" str = p0 :: p1 :: p2 :: rest /\
                            ParsePrefix (p1 +:+ "/" +:+ p2) = None) \/
     (exists p0 p1 p2 p3 p4, Split "/" str = [p0; p1; p2; p3; p4] /\
                             ParsePrefix (p3 +:+ "/" +:+ p4) = None)).
Proof.
  destruct (decide (str = "")) as [Hempty|Hempty].
  { rewrite PoolIDFromString_other by by left.
    eexists _, _. split; [reflexivity|]. split; [by right|]. split; [by left|done]. }
  destruct (Split "/" str) as [|p0 [|p1 [|p2 [|p3 [|p4 [|p5 rest]]]]]] eqn:Hsplit.
  1-3, 5, 7:
    rewrite PoolIDFromString_other by (right; rewrite Hsplit; unfold len; simpl; lia);
    eexists _, _; (split; [reflexivity|]); (split; [by right|]); split;
      [intros _; right; left; unfold len; simpl; lia|done].
  - (* three segments *)
    rewrite (PoolIDFromString_3 str p0 p1 p2) by done.
    destruct (ParsePrefix (p1 +:+ "/" +:+ p2)) as [q|] eqn:Hq.
    + eexists _, _. split; [reflexivity|]. split; [by left|]. split; [done|].
      intros [?|[[Hl _]|[(?&?&?&?&[= <- <- <- <-]&Hn)|(?&?&?&?&?&[=]&_)]]];
        [done|unfold len in Hl; simpl in Hl; lia|congruence].
    + eexists _, _. split; [reflexivity|]. split; [by right|]. split; [|done].
      intros _. right; right; left. by eexists _, _, _, _.
  - (* five segments *)
    rewrite (PoolIDFromString_5 str p0 p1 p2 p3 p4) by done.
    destruct (ParsePrefix (p1 +:+ "/" +:+ p2)) as [q|] eqn:Hq.
    + destruct (ParsePrefix (p3 +:+ "/" +:+ p4)) as [q'|] eqn:Hq'.
      * eexists _, _. split; [reflexivity|]. split; [by left|]. split; [done|].
        intros [?|[[_ Hl]|[(?&?&?&?&[= <- <- <- <-]&Hn)|(?&?&?&?&?&[= <- <- <- <- <-]&Hn)]]];
          [done|unfold len in Hl; simpl in Hl; lia|congruence|congruence].
      * eexists _, _. split; [reflexivity|]. split; [by right|]. split; [|done].
        intros _. right; right; right. by eexists _, _, _, _, _.
    + eexists _, _. split; [reflexivity|]. split; [by right|]. split; [|done].
      intros _. right; right; left. by eexists _, _, _, _.
Qed.

(** C7: [PoolIDFromString] always returns, and it returns an error, always
    the invalid-parameter error built from the input, exactly when the input
    is empty, or does not split on ['/'] into 3 or 5 segments, or the second
    and third segments do not parse as a prefix, or (with 5 segments) the
    fourth and fifth do not.  The inputs [""], ["a/b"] and ["a/b/c/d"] are
    rejected. *)
Theorem PoolIDFromString_error_iff (str : string) :
  (exists (pID : PoolID) (r : option error),
      PoolIDFromString str = Ret (pID, r) /\
      (forall e, r = Some e -> e = InvalidParameterErrorf str) /\
      (is_Some r <->
       str = "" \/
       (len (Split "/" str) <> 3 /\ len (Split "/" str) <> 5) \/
       (exists p0 p1 p2 rest, Split "/" str = p0 :: p1 :: p2 :: rest /\
                              ParsePrefix (p1 +:+ "/" +:+ p2) = None) \/
       (exists p0 p1 p2 p3 p4, Split "/" str = [p0; p1; p2; p3; p4] /\
                               ParsePrefix (p3 +:+ "/" +:+ p4) = None))) /\
  PoolIDFromString "" = Ret (PoolID_zero, Some (InvalidParameterErrorf "")) /\
  PoolIDFromString "a/b" = Ret (PoolID_zero, Some (InvalidParameterErrorf "a/b")) /\
  PoolIDFromString "a/b/c/d" = Ret (PoolID_zero, Some (InvalidParameterErrorf "a/b/c/d")).
Proof.
  split; [|repeat split].
  destruct (PoolIDFromString_cases str) as (pID & r & Hrun & Herr & Hiff).
  exists pID, r. split; [done|]. split.
  - intros e ->. destruct Herr as [?|[= ->]]; done.
  - rewrite <- Hiff. rewrite <- not_eq_None_Some. done.
Qed.

(** The string form of an identifier without a child subnet splits into
    three segments, the one with a child subnet into five. *)
Lemma Split_PoolID_String_3 (space a n : string) :
  contains "/" space = false -> contains "/" a = false -> contains "/" n = false ->
  Split "/" (space +:+ "/" +:+ (a +:+ "/" +:+ n)) = [space; a; n].
Proof.
  intros Hs Ha Hn.
  change (space +:+ "/" +:+ (a +:+ "/" +:+ n))
    with (space +:+ String "/" (a +:+ String "/" n)).
  rewrite Split_app by done. rewrite Split_app by done.
  by rewrite Split_no_sep.
Qed.

Lemma Split_PoolID_String_5 (space a n a' n' : string) :
  contains "/" space = false ->
  contains "/" a = false -> contains "/" n = false ->
  contains "/" a' = false -> contains "/" n' = false ->
  Split "/" (space +:+ "/" +:+ (a +:+ "/" +:+ n) +:+ "/" +:+ (a' +:+ "/" +:+ n'))
  = [space; a; n; a'; n'].
Proof.
  intros Hs Ha Hn Ha' Hn'.
  rewrite (append_assoc a).
  change (space +:+ "/" +:+ a +:+ ("/" +:+ n) +:+ "/" +:+ a' +:+ "/" +:+ n')
    with (space +:+ String "/" (a +:+ String "/" (n +:+ String "/" (a' +:+ String "/" n')))).
  rewrite Split_app by done. rewrite Split_app by done.
  rewrite Split_app by done. rewrite Split_app by done.
  by rewrite Split_no_sep.
Qed.

(** C4: given what [net/netip] guarantees for the text of valid prefixes,
    every pool identifier whose address-space name has no ['/'], whose
    subnet is a valid prefix and whose child subnet is the zero prefix or a
    valid prefix, is read back from its string form: [PoolIDFromString]
    returns it, with no error.  The string form is [<space>/<subnet>]
    without a child subnet and [<space>/<subnet>/<child>] with one. *)
Theorem PoolID_round_trip (p : PoolID) :
  netip_text_contract ->
  contains "/" (AddressSpace p) = false ->
  ValidPrefix (Subnet (key p)) ->
  ChildSubnet (key p) = Prefix_zero \/ ValidPrefix (ChildSubnet (key p)) ->
  PoolIDFromString (PoolID_String p) = Ret (p, None) /\
  (ChildSubnet (key p) = Prefix_zero ->
   PoolID_String p = AddressSpace p +:+ "/" +:+ Prefix_String (Subnet (key p))) /\
  (ChildSubnet (key p) <> Prefix_zero ->
   PoolID_String p = AddressSpace p +:+ "/" +:+ Prefix_String (Subnet (key p))
                     +:+ "/" +:+ Prefix_String (ChildSubnet (key p))).
Proof.
  intros Hnetip Hspace Hsub Hchild.
  split; [|split; intros Hc; unfold PoolID_String;
           [by rewrite bool_decide_true|by rewrite bool_decide_false]].
  destruct p as [space [sub child]]. simpl in *.
  destruct (Hnetip sub Hsub) as [(a & n & Hstr & Ha & Hn) Hparse].
  unfold PoolID_String. simpl.
  destruct Hchild as [->|Hchild].
  - rewrite bool_decide_true by done.
    rewrite (PoolIDFromString_3 _ space a n).
    + by rewrite <- Hstr, Hparse.
    + apply append_sep_not_empty.
    + rewrite Hstr. by apply Split_PoolID_String_3.
  - assert (Hnz : child <> Prefix_zero).
    { intros ->. destruct Hchild as [_ Hv]. discriminate. }
    destruct (Hnetip child Hchild) as [(a' & n' & Hstr' & Ha' & Hn') Hparse'].
    rewrite bool_decide_false by done.
    rewrite (PoolIDFromString_5 _ space a n a' n').
    + by rewrite <- Hstr, Hparse, <- Hstr', Hparse'.
    + apply append_sep_not_empty.
    + rewrite Hstr, Hstr'. by apply Split_PoolID_String_5.
Qed.

End PoolID_text.

(** ** The text form meets the contract *)

Lemma contains_app (c : ascii) (s t : string) :
  contains c (s +:+ t) = contains c s || contains c t.
Proof.
  induction s as [|d s IH]; [done|].
  rewrite append_cons. simpl. by rewrite IH, orb_assoc.
Qed.

Lemma decimal_no_separator (c : ascii) (d : Decimal.uint) :
  separator c -> contains c (DecimalString.NilEmpty.string_of_uint d) = false.
Proof.
  intros [->|[->| ->]]; induction d; simpl; try done.
Qed.

Lemma hexadecimal_no_separator (c : ascii) (d : Hexadecimal.uint) :
  separator c -> contains c (HexadecimalString.NilEmpty.string_of_uint d) = false.
Proof.
  intros [->|[->| ->]]; induction d; simpl; try done.
Qed.

Lemma itoa_no_separator (c : ascii) (n : Z) : separator c -> contains c (itoa n) = false.
Proof. apply decimal_no_separator. Qed.

Lemma hex_of_no_separator (c : ascii) (n : Z) : separator c -> contains c (hex_of n) = false.
Proof. apply hexadecimal_no_separator. Qed.

Lemma itoa_not_empty (n : Z) : itoa n <> "".
Proof.
  unfold itoa. destruct (Z.to_N n) as [|q]; [done|]. simpl.
  pose proof (DecimalPos.Unsigned.to_uint_nonnil q) as Hq.
  by destruct (Pos.to_uint q).
Qed.

Lemma hex_of_not_empty (n : Z) : hex_of n <> "".
Proof.
  unfold hex_of. destruct (Z.to_N n) as [|q]; [done|]. simpl.
  pose proof (HexadecimalPos.Unsigned.to_uint_nonnil q) as Hq.
  by destruct (Pos.to_hex_uint q).
Qed.

Lemma atoi_itoa (n : Z) : 0 <= n -> atoi (itoa n) = Some n.
Proof.
  intros Hn. unfold atoi. rewrite bool_decide_false by apply itoa_not_empty.
  unfold itoa. rewrite DecimalString.NilEmpty.usu. simpl.
  by rewrite DecimalN.Unsigned.of_to, Z2N.id.
Qed.

Lemma of_hex_hex_of (n : Z) : 0 <= n -> of_hex (hex_of n) = Some n.
Proof.
  intros Hn. unfold of_hex. rewrite bool_decide_false by apply hex_of_not_empty.
  unfold hex_of. rewrite HexadecimalString.NilEmpty.usu. simpl.
  by rewrite HexadecimalN.Unsigned.of_to, Z2N.id.
Qed.

Lemma octet_bounds (v k : Z) : 0 <= octet v k < 256.
Proof. unfold octet. apply Z.mod_pos_bound. lia. Qed.

Lemma group_bounds (v k : Z) : 0 <= group v k < 65536.
Proof. unfold group. apply Z.mod_pos_bound. lia. Qed.

Lemma below_octet (v k : Z) : below 256 (atoi (itoa (octet v k))) = Some (octet v k).
Proof.
  pose proof (octet_bounds v k). rewrite atoi_itoa by lia. simpl.
  by rewrite bool_decide_true.
Qed.

Lemma below_group (v k : Z) : below 65536 (of_hex (hex_of (group v k))) = Some (group v k).
Proof.
  pose proof (group_bounds v k). rewrite of_hex_hex_of by lia. simpl.
  by rewrite bool_decide_true.
Qed.

(** A 32-bit value is made of its four bytes, a 64-bit word of its four
    groups. *)
Lemma octets_join (v : Z) :
  0 <= v < 2 ^ 32 ->
  octet v 3 * 2 ^ 24 + octet v 2 * 2 ^ 16 + octet v 1 * 2 ^ 8 + octet v 0 = v.
Proof.
  intros Hv. unfold octet.
  change (2 ^ (8 * 3)) with 16777216. change (2 ^ (8 * 2)) with 65536.
  change (2 ^ (8 * 1)) with 256. change (2 ^ (8 * 0)) with 1.
  change (2 ^ 24) with 16777216. change (2 ^ 16) with 65536. change (2 ^ 8) with 256.
  change (2 ^ 32) with 4294967296 in Hv.
  Z.div_mod_to_equations. lia.
Qed.

Lemma groups_join (v : Z) :
  0 <= v < 2 ^ 64 ->
  group v 3 * 2 ^ 48 + group v 2 * 2 ^ 32 + group v 1 * 2 ^ 16 + group v 0 = v.
Proof.
  intros Hv. unfold group.
  change (2 ^ (16 * 3)) with 281474976710656. change (2 ^ (16 * 2)) with 4294967296.
  change (2 ^ (16 * 1)) with 65536. change (2 ^ (16 * 0)) with 1.
  change (2 ^ 48) with 281474976710656. change (2 ^ 32) with 4294967296.
  change (2 ^ 16) with 65536.
  change (2 ^ 64) with 18446744073709551616 in Hv.
  Z.div_mod_to_equations. lia.
Qed.

(** The bytes of a mapped IPv4 word are those of its low 32 bits. *)
Lemma octet_mapped (v k : Z) :
  0 <= v < 2 ^ 32 -> 0 <= k <= 3 -> octet (0xffff00000000 + v) k = octet v k.
Proof.
  intros Hv Hk. unfold octet.
  assert (Hcases : k = 0 \/ k = 1 \/ k = 2 \/ k = 3) by lia.
  change (2 ^ 32) with 4294967296 in Hv.
  destruct Hcases as [->|[->|[->| ->]]]; simpl Z.mul;
    [change (2 ^ 0) with 1|change (2 ^ 8) with 256|change (2 ^ 16) with 65536
    |change (2 ^ 24) with 16777216]; Z.div_mod_to_equations; lia.
Qed.

Lemma text_ParseAddr_4 (s a b c d : string) :
  Split "." s = [a; b; c; d] ->
  text_ParseAddr s =
    (a ← below 256 (atoi a); b ← below 256 (atoi b);
     c ← below 256 (atoi c); d ← below 256 (atoi d);
     Some (mkAddr (New (0xffff00000000 + a * 2 ^ 24 + b * 2 ^ 16 + c * 2 ^ 8 + d) 0) z4)).
Proof. intros Hs. unfold text_ParseAddr. by rewrite Hs. Qed.

Lemma text_ParseAddr_8 (s g0 g1 g2 g3 g4 g5 g6 g7 : string) :
  Split "." s = [s] ->
  Split ":" s = [g0; g1; g2; g3; g4; g5; g6; g7] ->
  text_ParseAddr s =
    (g0 ← below 65536 (of_hex g0); g1 ← below 65536 (of_hex g1);
     g2 ← below 65536 (of_hex g2); g3 ← below 65536 (of_hex g3);
     g4 ← below 65536 (of_hex g4); g5 ← below 65536 (of_hex g5);
     g6 ← below 65536 (of_hex g6); g7 ← below 65536 (of_hex g7);
     Some (mkAddr (New (g4 * 2 ^ 48 + g5 * 2 ^ 32 + g6 * 2 ^ 16 + g7)
                       (g0 * 2 ^ 48 + g1 * 2 ^ 32 + g2 * 2 ^ 16 + g3)) z6noz)).
Proof. intros Hdot Hcolon. unfold text_ParseAddr. by rewrite Hdot, Hcolon. Qed.

Lemma option_bind_Some {A B : Type} (f : A -> option B) (x : A) : (Some x ≫= f) = f x.
Proof. reflexivity. Qed.

Lemma Addr_text_4 (x : Addr) :
  Addr_wf x -> z x = z4 ->
  text_ParseAddr (Addr_text x) = Some x /\ contains "/" (Addr_text x) = false.
Proof.
  destruct x as [[lo hi] k]. unfold Addr_wf, Addr_text. simpl.
  intros [_ Hwf] ->. destruct Hwf as [-> Hlo].
  set (o3 := itoa (octet lo 3)). set (o2 := itoa (octet lo 2)).
  set (o1 := itoa (octet lo 1)). set (o0 := itoa (octet lo 0)).
  assert (Hsep : forall c, separator c ->
            contains c o3 = false /\ contains c o2 = false /\
            contains c o1 = false /\ contains c o0 = false).
  { intros c Hc. repeat split; by apply itoa_no_separator. }
  split.
  - destruct (Hsep "."%char) as (H3 & H2 & H1 & H0); [right; by left|].
    rewrite (text_ParseAddr_4 _ o3 o2 o1 o0).
    + unfold o3, o2, o1, o0.
      rewrite !below_octet, !option_bind_Some.
      do 3 f_equal.
      replace lo with (0xffff00000000 + (lo - 0xffff00000000)) at 1 2 3 4 5 by lia.
      rewrite !octet_mapped by lia.
      rewrite <- !Z.add_assoc. rewrite !Z.add_assoc.
      pose proof (octets_join (lo - 0xffff00000000) ltac:(lia)). lia.
    + change (o3 +:+ "." +:+ o2 +:+ "." +:+ o1 +:+ "." +:+ o0)
        with (o3 +:+ String "." (o2 +:+ String "." (o1 +:+ String "." o0))).
      rewrite !Split_app by done. by rewrite Split_no_sep.
  - destruct (Hsep "/"%char) as (H3 & H2 & H1 & H0); [by left|].
    rewrite !contains_app, H3, H2, H1, H0. reflexivity.
Qed.

Lemma Addr_text_6 (x : Addr) :
  Addr_wf x -> z x = z6noz ->
  text_ParseAddr (Addr_text x) = Some x /\ contains "/" (Addr_text x) = false.
Proof.
  destruct x as [[lo hi] k]. unfold Addr_wf, Addr_text, wf. simpl.
  intros [[Hlo Hhi] _] ->.
  set (g0 := hex_of (group hi 3)). set (g1 := hex_of (group hi 2)).
  set (g2 := hex_of (group hi 1)). set (g3 := hex_of (group hi 0)).
  set (g4 := hex_of (group lo 3)). set (g5 := hex_of (group lo 2)).
  set (g6 := hex_of (group lo 1)). set (g7 := hex_of (group lo 0)).
  assert (Hsep : forall c, separator c ->
            contains c g0 = false /\ contains c g1 = false /\
            contains c g2 = false /\ contains c g3 = false /\
            contains c g4 = false /\ contains c g5 = false /\
            contains c g6 = false /\ contains c g7 = false).
  { intros c Hc. repeat split; by apply hex_of_no_separator. }
  split.
  - destruct (Hsep "."%char) as (D0 & D1 & D2 & D3 & D4 & D5 & D6 & D7); [right; by left|].
    destruct (Hsep ":"%char) as (C0 & C1 & C2 & C3 & C4 & C5 & C6 & C7); [right; by right|].
    rewrite (text_ParseAddr_8 _ g0 g1 g2 g3 g4 g5 g6 g7).
    + unfold g0, g1, g2, g3, g4, g5, g6, g7.
      rewrite !below_group, !option_bind_Some.
      by rewrite (groups_join hi Hhi), (groups_join lo Hlo).
    + apply Split_no_sep.
      rewrite !contains_app, D0, D1, D2, D3, D4, D5, D6, D7. reflexivity.
    + change (g0 +:+ ":" +:+ g1 +:+ ":" +:+ g2 +:+ ":" +:+ g3 +:+ ":" +:+
              g4 +:+ ":" +:+ g5 +:+ ":" +:+ g6 +:+ ":" +:+ g7)
        with (g0 +:+ String ":" (g1 +:+ String ":" (g2 +:+ String ":" (g3 +:+ String ":"
              (g4 +:+ String ":" (g5 +:+ String ":" (g6 +:+ String ":" g7))))))).
      rewrite !Split_app by done. by rewrite Split_no_sep.
  - destruct (Hsep "/"%char) as (S0 & S1 & S2 & S3 & S4 & S5 & S6 & S7); [by left|].
    rewrite !contains_app, S0, S1, S2, S3, S4, S5, S6, S7. reflexivity.
Qed.

(** The text form meets the contract of [net/netip]. *)
Lemma netip_text_meets_contract : @netip_text_contract netip_text.
Proof.
  intros p Hp. destruct (ValidPrefix_bits p Hp) as [Hbits _].
  destruct Hp as [[Hwf Hrange] Hvalid].
  assert (Haddr : text_ParseAddr (Addr_text (ip p)) = Some (ip p) /\
                  contains "/" (Addr_text (ip p)) = false).
  { destruct Hrange as [H0|[[Hz|Hz] _]].
    - unfold IsValid in Hvalid. rewrite H0 in Hvalid. discriminate.
    - by apply Addr_text_4.
    - by apply Addr_text_6. }
  destruct Haddr as [Hparse Hslash].
  assert (Hstr : text_Prefix_String p = Addr_text (ip p) +:+ "/" +:+ itoa (Bits p)).
  { unfold text_Prefix_String. by rewrite Hvalid. }
  split.
  - exists (Addr_text (ip p)), (itoa (Bits p)). split; [exact Hstr|]. split; [exact Hslash|].
    apply itoa_no_separator. by left.
  - change (ParsePrefix (Prefix_String p)) with (text_ParsePrefix (text_Prefix_String p)).
    rewrite Hstr. unfold text_ParsePrefix.
    change (Addr_text (ip p) +:+ "/" +:+ itoa (Bits p))
      with (Addr_text (ip p) +:+ String "/" (itoa (Bits p))).
    rewrite Split_app by done.
    rewrite Split_no_sep by (apply itoa_no_separator; by left).
    rewrite Hparse, option_bind_Some, atoi_itoa, option_bind_Some by lia.
    unfold Prefix_Addr in Hbits. rewrite bool_decide_true by lia.
    destruct p as [x n]. unfold Bits. simpl. do 2 f_equal. lia.
Qed.

(** Identifiers used as examples: an IPv4 pool with a child subnet and an
    IPv6 pool without one. *)
Lemma PoolID_round_trip_witness :
  let p := mkPoolID "LocalDefault" (mkSubnetKey p_10_0_0_0_23 p_10_0_1_0_25) in
  @PoolIDFromString netip_text (@PoolID_String netip_text p) = Ret (p, None).
Proof.
  intros p.
  refine (proj1 (@PoolID_round_trip netip_text p netip_text_meets_contract _ _ _)).
  - reflexivity.
  - apply ValidPrefix_PrefixFrom4; lia.
  - right. apply ValidPrefix_PrefixFrom4; lia.
Defined.

(** ** The merge iterator *)

Import MergeIter.

Section merge_iterator.

Variable cmp : Prefix -> Prefix -> Z.
Variables xs ys : list Prefix.

(** The slices are Go slices: their lengths add up to an [int]. *)
Hypothesis lengths_fit : len xs + len ys <= max_int.

Local Abbreviation at_cursors := (iter_at cmp xs ys).
Local Abbreviation cursors_ok := (cursors_within xs ys).

Lemma index_of_nat (s : list Prefix) (i : nat) :
  index s (Z.of_nat i) =
    match s !! i with
    | Some x => Ret x
    | None => Panics IndexOutOfRange
    end.
Proof.
  destruct (s !! i) as [x|] eqn:Hx.
  - by apply index_lookup.
  - apply index_out_of_range. apply lookup_ge_None in Hx. unfold len. lia.
Qed.

Lemma nextA_at (i j : nat) (l : bool) :
  nextA (mkIter xs ys (Z.of_nat i) (Z.of_nat j) cmp l) = Ret (next_is_a cmp xs ys i j).
Proof.
  unfold nextA, next_is_a. cbn [a b ia ib MergeIter.cmp].
  rewrite !index_of_nat.
  destruct (xs !! i) as [x|] eqn:Hx; destruct (ys !! j) as [y|] eqn:Hy;
    [apply lookup_lt_Some in Hx, Hy
    |apply lookup_lt_Some in Hx; apply lookup_ge_None in Hy
    |apply lookup_ge_None in Hx; apply lookup_lt_Some in Hy
    |apply lookup_ge_None in Hx, Hy];
    destruct (Z.ltb_spec (Z.of_nat i) (len xs));
    destruct (Z.ltb_spec (Z.of_nat j) (len ys));
    destruct (Z.leb_spec (len ys) (Z.of_nat j));
    unfold len in *; try lia; simpl; try done.
  by destruct (cmp x y <=? 0).
Qed.

Lemma newMergeIter_at : newMergeIter xs ys cmp = Ret (at_cursors 0%nat 0%nat).
Proof.
  unfold newMergeIter. change 0 with (Z.of_nat 0). by rewrite nextA_at.
Qed.

(** One [Inc] moves the cursor of the slice that supplied the current
    element, as long as the cursor stays an [int]. *)
Lemma Inc_at (i j : nat) :
  Z.of_nat i < max_int -> Z.of_nat j < max_int ->
  Inc (at_cursors i j) =
    Ret (if next_is_a cmp xs ys i j then at_cursors (S i) j else at_cursors i (S j)).
Proof.
  intros Hi Hj. unfold Inc, iter_at. cbn [lastA ia ib].
  destruct (next_is_a cmp xs ys i j); unfold set_ia, set_ib; cbn [a b ia ib lastA MergeIter.cmp];
    rewrite wrap_int_id by (unfold min_int, max_int in *; lia);
    [replace (Z.of_nat i + 1) with (Z.of_nat (S i)) by lia
    |replace (Z.of_nat j + 1) with (Z.of_nat (S j)) by lia];
    by rewrite nextA_at.
Qed.

Lemma next_is_a_lt (i j : nat) : next_is_a cmp xs ys i j = true -> (i < length xs)%nat.
Proof.
  unfold next_is_a. destruct (xs !! i) as [x|] eqn:Hx; [|done].
  intros _. by apply lookup_lt_Some in Hx.
Qed.

Lemma next_is_b_lt (i j : nat) :
  next_is_a cmp xs ys i j = false -> (i < length xs)%nat -> (j < length ys)%nat.
Proof.
  unfold next_is_a. intros Hn Hi.
  destruct (lookup_lt_is_Some_2 xs i Hi) as [x Hx]. rewrite Hx in Hn.
  destruct (ys !! j) as [y|] eqn:Hy; [|done]. by apply lookup_lt_Some in Hy.
Qed.

Lemma cursors_ok_next (i j : nat) :
  cursors_ok i j ->
  if next_is_a cmp xs ys i j then cursors_ok (S i) j else cursors_ok i (S j).
Proof.
  intros [Hi Hj]. destruct (next_is_a cmp xs ys i j) eqn:Hn.
  - apply next_is_a_lt in Hn. split; lia.
  - split; [done|]. intros Hlt. pose proof (next_is_b_lt i j Hn Hlt). lia.
Qed.

Lemma cursors_sum (k : nat) :
  ((cursors cmp xs ys k).1 + (cursors cmp xs ys k).2 = k)%nat.
Proof.
  induction k as [|k IH]; [done|]. simpl.
  destruct (next_is_a cmp xs ys _ _); simpl; lia.
Qed.

Lemma cursors_cursors_ok (k : nat) :
  cursors_ok (cursors cmp xs ys k).1 (cursors cmp xs ys k).2.
Proof.
  induction k as [|k IH]; simpl.
  - split; lia.
  - apply cursors_ok_next in IH. by destruct (next_is_a cmp xs ys _ _).
Qed.

(** The state after [k] calls of [Inc]. *)
Lemma Inc_n_at (k : nat) :
  Z.of_nat k <= max_int ->
  Inc_n (N.of_nat k) (at_cursors 0%nat 0%nat)
  = Ret (at_cursors (cursors cmp xs ys k).1 (cursors cmp xs ys k).2).
Proof.
  unfold Inc_n. induction k as [|k IH]; intros Hk; [done|].
  rewrite Nat2N.inj_succ, N.iter_succ, IH by lia.
  rewrite exec_bind_ret, Inc_at.
  - simpl. by destruct (next_is_a cmp xs ys _ _).
  - pose proof (cursors_sum k). lia.
  - pose proof (cursors_sum k). lia.
Qed.

(** [Get] returns the element under the cursors, and the zero prefix when
    there is none. *)
Lemma Get_at (i j : nat) :
  cursors_ok i j -> Z.of_nat (i + j) <= max_int ->
  Get (at_cursors i j) = Ret (default Prefix_zero (current cmp xs ys i j)).
Proof.
  intros [Hi Hj] Hk. unfold Get, iter_at. cbn [a b ia ib lastA].
  rewrite !wrap_int_id by (unfold min_int, max_int, len in *; lia).
  rewrite !index_of_nat. unfold current, next_is_a.
  destruct (xs !! i) as [x|] eqn:Hx; destruct (ys !! j) as [y|] eqn:Hy.
  - apply lookup_lt_Some in Hx, Hy.
    destruct (Z.leb_spec (len xs + len ys) (Z.of_nat i + Z.of_nat j));
      [unfold len in *; lia|].
    by destruct (cmp x y <=? 0).
  - apply lookup_lt_Some in Hx. apply lookup_ge_None in Hy.
    destruct (Z.leb_spec (len xs + len ys) (Z.of_nat i + Z.of_nat j));
      [unfold len in *; lia|done].
  - apply lookup_ge_None in Hx. apply lookup_lt_Some in Hy.
    destruct (Z.leb_spec (len xs + len ys) (Z.of_nat i + Z.of_nat j));
      [unfold len in *; lia|done].
  - apply lookup_ge_None in Hx, Hy.
    destruct (Z.leb_spec (len xs + len ys) (Z.of_nat i + Z.of_nat j));
      [done|unfold len in *; lia].
Qed.

(** *** The merge of the spec *)

Lemma merge_spec_nil_l (l : list Prefix) : merge_spec cmp [] l = l.
Proof. by destruct l. Qed.

Lemma merge_spec_nil_r (l : list Prefix) : merge_spec cmp l [] = l.
Proof. by destruct l. Qed.

Lemma merge_spec_cons (x y : Prefix) (l k : list Prefix) :
  merge_spec cmp (x :: l) (y :: k) =
    if cmp x y <=? 0 then x :: merge_spec cmp l (y :: k)
    else y :: merge_spec cmp (x :: l) k.
Proof. reflexivity. Qed.

(** The merge of what lies beyond the cursors starts with the current
    element and goes on beyond the next cursors. *)
Lemma merge_spec_at (i j : nat) :
  merge_spec cmp (drop i xs) (drop j ys) =
    match current cmp xs ys i j with
    | Some x =>
        x :: (if next_is_a cmp xs ys i j
              then merge_spec cmp (drop (S i) xs) (drop j ys)
              else merge_spec cmp (drop i xs) (drop (S j) ys))
    | None => []
    end.
Proof.
  unfold current, next_is_a.
  destruct (xs !! i) as [x|] eqn:Hx; destruct (ys !! j) as [y|] eqn:Hy.
  - rewrite (drop_S xs x i Hx), (drop_S ys y j Hy), merge_spec_cons.
    by destruct (cmp x y <=? 0).
  - apply lookup_ge_None in Hy.
    rewrite (drop_S xs x i Hx), (drop_ge ys j Hy). by rewrite !merge_spec_nil_r.
  - apply lookup_ge_None in Hx.
    rewrite (drop_S ys y j Hy), (drop_ge xs i Hx). by rewrite !merge_spec_nil_l.
  - apply lookup_ge_None in Hx, Hy. by rewrite (drop_ge xs i Hx), (drop_ge ys j Hy).
Qed.

Lemma merge_spec_perm (l k : list Prefix) : merge_spec cmp l k ≡ₚ l ++ k.
Proof.
  revert k. induction l as [|x l IHl]; intros k.
  - by rewrite merge_spec_nil_l.
  - induction k as [|y k IHk].
    + by rewrite merge_spec_nil_r, app_nil_r.
    + rewrite merge_spec_cons. destruct (cmp x y <=? 0).
      * simpl. by rewrite IHl.
      * rewrite IHk. by rewrite <- Permutation_middle.
Qed.

Lemma merge_spec_length (l k : list Prefix) :
  length (merge_spec cmp l k) = (length l + length k)%nat.
Proof. by rewrite merge_spec_perm, length_app. Qed.

(** The current element is the one at the position of the walk in the
    merge. *)
Lemma cursors_S (k : nat) :
  cursors cmp xs ys (S k) =
    if next_is_a cmp xs ys (cursors cmp xs ys k).1 (cursors cmp xs ys k).2
    then (S (cursors cmp xs ys k).1, (cursors cmp xs ys k).2)
    else ((cursors cmp xs ys k).1, S (cursors cmp xs ys k).2).
Proof. reflexivity. Qed.

Lemma merge_spec_drop (k : nat) :
  drop k (merge_spec cmp xs ys)
  = merge_spec cmp (drop (cursors cmp xs ys k).1 xs) (drop (cursors cmp xs ys k).2 ys).
Proof.
  induction k as [|k IH]; [by rewrite !drop_0|].
  replace (S k) with (k + 1)%nat at 1 by lia.
  rewrite <- (drop_drop _ 1 k), IH, merge_spec_at, cursors_S.
  set (i := (cursors cmp xs ys k).1). set (j := (cursors cmp xs ys k).2).
  destruct (current cmp xs ys i j) as [x|] eqn:Hc.
  - change (drop 1 (x :: ?l)) with l.
    by destruct (next_is_a cmp xs ys i j).
  - unfold current, next_is_a in *.
    destruct (xs !! i) eqn:Hx; destruct (ys !! j) eqn:Hy; try done.
    cbn [fst snd drop]. apply lookup_ge_None in Hx, Hy.
    rewrite (drop_ge xs), (drop_ge ys) by lia. done.
Qed.

Lemma current_lookup (k : nat) :
  current cmp xs ys (cursors cmp xs ys k).1 (cursors cmp xs ys k).2
  = merge_spec cmp xs ys !! k.
Proof.
  assert (Hk : merge_spec cmp xs ys !! k = drop k (merge_spec cmp xs ys) !! 0%nat)
    by (rewrite lookup_drop; f_equal; lia).
  rewrite Hk, merge_spec_drop, merge_spec_at.
  by destruct (current cmp xs ys _ _).
Qed.

(** *** The walk *)

Lemma until_zero_no_zero (l : list Prefix) :
  Forall (fun p => p <> Prefix_zero) l -> until_zero l = l.
Proof.
  induction 1 as [|x l Hx Hl IH]; [done|].
  simpl. rewrite bool_decide_false by done. by rewrite IH.
Qed.

Lemma until_zero_prefix (l : list Prefix) : until_zero l `prefix_of` l.
Proof.
  induction l as [|x l IH]; [done|]. simpl.
  case_bool_decide; [apply prefix_nil|by apply prefix_cons].
Qed.

(** From cursors within the slices, the loop of the walk returns the merge
    of what lies beyond the cursors, up to the first zero prefix, once the
    budget covers the elements left and the final [Get]. *)
Lemma walk_loop_at (fuel i j : nat) :
  cursors_ok i j -> (j <= length ys)%nat ->
  (length xs - i + (length ys - j) < fuel)%nat ->
  walk_loop fuel (at_cursors i j)
  = Ret (until_zero (merge_spec cmp (drop i xs) (drop j ys))).
Proof.
  revert i j. induction fuel as [|fuel IH]; intros i j Hok Hj Hfuel; [lia|].
  assert (Hfit : Z.of_nat (i + j) <= max_int).
  { destruct Hok as [Hi _]. unfold len in lengths_fit. lia. }
  simpl. rewrite Get_at, exec_bind_ret, merge_spec_at by done.
  destruct (current cmp xs ys i j) as [x|] eqn:Hcur; simpl.
  2: done.
  case_bool_decide as Hz; [done|].
  assert (Hleft : (i < length xs)%nat \/ (j < length ys)%nat).
  { unfold current in Hcur.
    destruct (xs !! i) eqn:Hx; [left; by apply lookup_lt_Some in Hx|].
    destruct (ys !! j) eqn:Hy; [right; by apply lookup_lt_Some in Hy|done]. }
  rewrite Inc_at, exec_bind_ret.
  2,3: destruct Hok as [Hi _]; unfold len in lengths_fit; lia.
  pose proof (cursors_ok_next i j Hok) as Hnext.
  destruct (next_is_a cmp xs ys i j) eqn:Hn.
  - apply next_is_a_lt in Hn.
    rewrite IH by (done || lia). done.
  - assert (Hjlt : (j < length ys)%nat).
    { destruct Hleft as [Hi|]; [by apply (next_is_b_lt i j)|done]. }
    rewrite IH by (done || lia). done.
Qed.

(** The walk returns the merge of the spec, up to its first zero prefix. *)
Lemma walk_merge_spec (fuel : nat) :
  (length xs + length ys < fuel)%nat ->
  walk fuel xs ys cmp = Ret (until_zero (merge_spec cmp xs ys)).
Proof.
  intros Hfuel. unfold walk. rewrite newMergeIter_at, exec_bind_ret.
  rewrite walk_loop_at; [by rewrite !drop_0| |lia|lia].
  split; lia.
Qed.

(** *** Order of the walk *)

Lemma HdRel_merge_spec (x : Prefix) (l k : list Prefix) :
  HdRel (cmp_le cmp) x l -> HdRel (cmp_le cmp) x k ->
  HdRel (cmp_le cmp) x (merge_spec cmp l k).
Proof.
  intros Hl Hk. destruct l as [|u l]; [by rewrite merge_spec_nil_l|].
  destruct k as [|v k]; [by rewrite merge_spec_nil_r|].
  rewrite merge_spec_cons. inversion Hl; inversion Hk; subst.
  destruct (cmp u v <=? 0); by constructor.
Qed.

Lemma merge_spec_sorted (l k : list Prefix) :
  (forall x y, 0 < cmp x y -> cmp y x <= 0) ->
  Sorted (cmp_le cmp) l -> Sorted (cmp_le cmp) k ->
  Sorted (cmp_le cmp) (merge_spec cmp l k).
Proof.
  intros Hcmp Hl. revert k. induction Hl as [|x l Hl IHl Hx]; intros k Hk.
  - by rewrite merge_spec_nil_l.
  - induction Hk as [|y k Hk IHk Hy].
    + rewrite merge_spec_nil_r. by constructor.
    + rewrite merge_spec_cons. destruct (Z.leb_spec (cmp x y) 0) as [Hle|Hgt].
      * constructor; [apply IHl; by constructor|].
        apply HdRel_merge_spec; [done|by constructor].
      * constructor; [done|].
        apply HdRel_merge_spec; [|done]. constructor. by apply Hcmp.
Qed.

Lemma until_zero_sorted (R : relation Prefix) (l : list Prefix) :
  Sorted R l -> Sorted R (until_zero l).
Proof.
  induction 1 as [|x l Hl IH Hx]; simpl; [constructor|].
  case_bool_decide; constructor; [done|].
  destruct Hx as [|y l' Hxy]; simpl; [constructor|].
  case_bool_decide; by constructor.
Qed.

(** *** Every element is visited *)

Lemma current_None (i j : nat) :
  current cmp xs ys i j = None <-> (length xs <= i)%nat /\ (length ys <= j)%nat.
Proof.
  unfold current. rewrite <- !lookup_ge_None.
  destruct (xs !! i), (ys !! j); split; try done; intros [? ?]; done.
Qed.

Lemma current_elem_of (i j : nat) (x : Prefix) :
  current cmp xs ys i j = Some x -> x ∈ xs \/ x ∈ ys.
Proof.
  unfold current.
  destruct (xs !! i) as [u|] eqn:Hx; destruct (ys !! j) as [v|] eqn:Hy; intros [= <-].
  - destruct (cmp u v <=? 0); [left|right]; by eapply list_elem_of_lookup_2.
  - left. by eapply list_elem_of_lookup_2.
  - right. by eapply list_elem_of_lookup_2.
Qed.

Lemma cursors_total :
  cursors cmp xs ys (length xs + length ys) = (length xs, length ys).
Proof.
  pose proof (cursors_sum (length xs + length ys)) as Hsum.
  destruct (cursors_cursors_ok (length xs + length ys)) as [Hi Hj].
  destruct (cursors cmp xs ys (length xs + length ys)) as [i j]. simpl in *.
  f_equal; lia.
Qed.

Lemma cursors_b_mono (k k' : nat) :
  (k <= k')%nat -> ((cursors cmp xs ys k).2 <= (cursors cmp xs ys k').2)%nat.
Proof.
  induction 1 as [|k' _ IH]; [done|].
  rewrite cursors_S. destruct (next_is_a cmp xs ys _ _); simpl; lia.
Qed.

(** Before the cursor of [ys] moves past [j], some step has it at [j] and
    takes the element of [ys]. *)
Lemma cursors_b_visit (j k : nat) :
  (j < (cursors cmp xs ys k).2)%nat ->
  exists k', (k' < k)%nat /\ (cursors cmp xs ys k').2 = j /\
             next_is_a cmp xs ys (cursors cmp xs ys k').1 (cursors cmp xs ys k').2 = false.
Proof.
  induction k as [|k IH]; [simpl; lia|].
  intros Hj. destruct (decide (j < (cursors cmp xs ys k).2)%nat) as [Hlt|Hge].
  - destruct (IH Hlt) as (k' & Hk' & Hb & Hn). exists k'. split; [lia|done].
  - rewrite cursors_S in Hj.
    destruct (next_is_a cmp xs ys _ _) eqn:Hn; simpl in Hj; [lia|].
    exists k. split; [lia|]. split; [lia|done].
Qed.

(** *** Any sequence of calls *)

Lemma run_at (cs : list call) (i j : nat) :
  cursors_ok i j ->
  Z.of_nat (i + j + count_Inc cs) <= max_int ->
  exists (i' j' : nat) (outs : list Prefix),
    run cs (at_cursors i j) = Ret (at_cursors i' j', outs) /\
    cursors_ok i' j' /\ (i' + j' = i + j + count_Inc cs)%nat.
Proof.
  revert i j. induction cs as [|c cs IH]; intros i j Hok Hfit.
  - exists i, j, []. split; [done|]. split; [done|]. unfold count_Inc. simpl. lia.
  - destruct c.
    + assert (Hc : count_Inc (CallGet :: cs) = count_Inc cs) by done.
      rewrite Hc in *.
      destruct (IH i j Hok Hfit) as (i' & j' & outs & Hrun & Hok' & Hsum).
      exists i', j', (default Prefix_zero (current cmp xs ys i j) :: outs).
      split; [|done]. cbn [run]. rewrite Get_at by (done || lia).
      rewrite exec_bind_ret, Hrun. done.
    + assert (Hc : count_Inc (CallInc :: cs) = S (count_Inc cs)) by done.
      rewrite Hc in *.
      cbn [run]. rewrite Inc_at, exec_bind_ret by lia.
      pose proof (cursors_ok_next i j Hok) as Hnext.
      destruct (next_is_a cmp xs ys i j).
      * destruct (IH (S i) j Hnext ltac:(lia)) as (i' & j' & outs & Hrun & Hok' & Hsum).
        exists i', j', outs. split; [done|]. split; [done|lia].
      * destruct (IH i (S j) Hnext ltac:(lia)) as (i' & j' & outs & Hrun & Hok' & Hsum).
        exists i', j', outs. split; [done|]. split; [done|lia].
Qed.

End merge_iterator.

(** The iterator after [k] calls of [Inc] on a fresh one. *)
Lemma fresh_Inc_n (cmp : Prefix -> Prefix -> Z) (xs ys : list Prefix) (k : nat) :
  Z.of_nat k <= max_int ->
  (newMergeIter xs ys cmp ≫= Inc_n (N.of_nat k))
  = Ret (iter_at cmp xs ys (cursors cmp xs ys k).1 (cursors cmp xs ys k).2).
Proof.
  intros Hk. rewrite newMergeIter_at, exec_bind_ret. by apply Inc_n_at.
Qed.

Lemma walk_no_zero (cmp : Prefix -> Prefix -> Z) (xs ys : list Prefix) (fuel : nat) :
  len xs + len ys <= max_int ->
  Forall (fun p => p <> Prefix_zero) xs -> Forall (fun p => p <> Prefix_zero) ys ->
  (length xs + length ys < fuel)%nat ->
  walk fuel xs ys cmp = Ret (merge_spec cmp xs ys).
Proof.
  intros Hfit Hxs Hys Hfuel. rewrite walk_merge_spec by done.
  rewrite until_zero_no_zero; [done|].
  rewrite merge_spec_perm. by apply Forall_app.
Qed.

(** The comparator of the examples is a three-way comparison: a prefix
    that is greater than another is not also less than it. *)
Lemma PrefixCompare_antisym (x y : Prefix) :
  0 < PrefixCompare x y -> PrefixCompare y x <= 0.
Proof.
  unfold PrefixCompare, Addr_Compare.
  repeat case_bool_decide; repeat case_match; lia.
Qed.

(** C6: with a comparator under which an element that is greater than
    another is not also less than it, and two slices each sorted under it,
    the walk returns (given a budget that covers the elements and the final
    [Get]) and the elements it emits are sorted under the comparator; they
    are the merge of the two slices, cut at the first zero prefix if the
    slices contain one.  With the address-then-length comparator,
    [10.0.0.0/24; 10.0.2.0/24] and [10.0.1.0/24] give exactly
    [10.0.0.0/24; 10.0.1.0/24; 10.0.2.0/24]. *)
Theorem walk_sorted :
  (forall (cmp : Prefix -> Prefix -> Z) (xs ys : list Prefix) (fuel : nat),
      (forall x y, 0 < cmp x y -> cmp y x <= 0) ->
      len xs + len ys <= max_int ->
      Sorted (cmp_le cmp) xs -> Sorted (cmp_le cmp) ys ->
      (length xs + length ys < fuel)%nat ->
      exists l, walk fuel xs ys cmp = Ret l /\
                Sorted (cmp_le cmp) l /\
                l = until_zero (merge_spec cmp xs ys) /\
                l `prefix_of` merge_spec cmp xs ys) /\
  walk 4 [p_10_0_0_0_24; p_10_0_2_0_24] [p_10_0_1_0_24] PrefixCompare
  = Ret [p_10_0_0_0_24; p_10_0_1_0_24; p_10_0_2_0_24].
Proof.
  split; [|reflexivity].
  intros cmp xs ys fuel Hcmp Hfit Hxs Hys Hfuel.
  exists (until_zero (merge_spec cmp xs ys)).
  split; [by apply walk_merge_spec|].
  split; [by apply until_zero_sorted, merge_spec_sorted|].
  split; [done|apply until_zero_prefix].
Qed.

(** Under a transitive comparator the walk is sorted in the strong sense:
    every emitted element is not greater than any later one. *)
Lemma walk_strongly_sorted (cmp : Prefix -> Prefix -> Z) (xs ys : list Prefix) (fuel : nat) :
  (forall x y, 0 < cmp x y -> cmp y x <= 0) ->
  Transitive (cmp_le cmp) ->
  len xs + len ys <= max_int ->
  Sorted (cmp_le cmp) xs -> Sorted (cmp_le cmp) ys ->
  (length xs + length ys < fuel)%nat ->
  exists l, walk fuel xs ys cmp = Ret l /\ StronglySorted (cmp_le cmp) l.
Proof.
  intros Hcmp Htrans Hfit Hxs Hys Hfuel.
  exists (until_zero (merge_spec cmp xs ys)).
  split; [by apply walk_merge_spec|].
  apply Sorted_StronglySorted; [done|].
  by apply until_zero_sorted, merge_spec_sorted.
Qed.

Lemma walk_sorted_witness :
  exists l, walk 4 [p_10_0_0_0_24; p_10_0_2_0_24] [p_10_0_1_0_24] PrefixCompare = Ret l /\
            Sorted (cmp_le PrefixCompare) l.
Proof.
  destruct (proj1 walk_sorted PrefixCompare [p_10_0_0_0_24; p_10_0_2_0_24] [p_10_0_1_0_24] 4%nat)
    as (l & Hwalk & Hsorted & _).
  - apply PrefixCompare_antisym.
  - vm_compute. discriminate.
  - repeat constructor; vm_compute; discriminate.
  - repeat constructor.
  - simpl. lia.
  - exists l. by split.
Defined.

(** C10 (as amended): for slices that contain no zero prefix, and any
    comparator, the walk returns and emits exactly [len(a) + len(b)]
    elements, ties or not: the elements emitted are those of the two slices,
    each as often as it occurs, so none is dropped. *)
Theorem walk_emits_all (cmp : Prefix -> Prefix -> Z) (xs ys : list Prefix) (fuel : nat) :
  len xs + len ys <= max_int ->
  Forall (fun p => p <> Prefix_zero) xs -> Forall (fun p => p <> Prefix_zero) ys ->
  (length xs + length ys < fuel)%nat ->
  exists l, walk fuel xs ys cmp = Ret l /\
            length l = (length xs + length ys)%nat /\
            l ≡ₚ xs ++ ys.
Proof.
  intros Hfit Hxs Hys Hfuel. exists (merge_spec cmp xs ys).
  split; [by apply walk_no_zero|].
  split; [apply merge_spec_length|apply merge_spec_perm].
Qed.

Lemma walk_emits_all_witness :
  exists l, walk 3 [p_10_0_0_0_24] [p_10_0_0_0_24] PrefixCompare = Ret l /\
            length l = 2%nat.
Proof.
  destruct (walk_emits_all PrefixCompare [p_10_0_0_0_24] [p_10_0_0_0_24] 3)
    as (l & Hwalk & Hlen & _).
  - vm_compute. discriminate.
  - repeat constructor; discriminate.
  - repeat constructor; discriminate.
  - simpl. lia.
  - exists l. by split.
Defined.

(** C10 (the claim as stated fails): a slice may hold the zero prefix, and
    the walk then stops at it.  For [a = [netip.Prefix{}]] and an empty [b]
    the first [Get] returns the zero prefix: the walk emits no element, not
    [len(a) + len(b) = 1]. *)
Lemma walk_stops_at_zero_prefix :
  Sorted (cmp_le PrefixCompare) [Prefix_zero] /\
  Sorted (cmp_le PrefixCompare) [] /\
  (forall fuel, walk (S fuel) [Prefix_zero] [] PrefixCompare = Ret []) /\
  length ([] : list Prefix) <> (length [Prefix_zero] + length ([] : list Prefix))%nat.
Proof.
  split; [repeat constructor|]. split; [constructor|]. split; [|simpl; lia].
  intros fuel. reflexivity.
Qed.

(** C2 (the claim as stated fails): with [10.0.0.0/24] as the only element
    of both slices the comparator reports a tie at the first position, and
    the walk emits the element twice, first the copy of [a] and then the
    copy of [b]: two elements, [len(a) + len(b)], although a tie occurred.
    Under a comparator that looks at the address only, [10.0.0.0/24] in [a]
    and [10.0.0.0/25] in [b] tie as well, and the walk shows both. *)
Lemma walk_tie_emits_both :
  PrefixCompare p_10_0_0_0_24 p_10_0_0_0_24 = 0 /\
  walk 3 [p_10_0_0_0_24] [p_10_0_0_0_24] PrefixCompare
  = Ret [p_10_0_0_0_24; p_10_0_0_0_24] /\
  length [p_10_0_0_0_24; p_10_0_0_0_24]
  = (length [p_10_0_0_0_24] + length [p_10_0_0_0_24])%nat /\
  (let by_address x y := Addr_Compare (Prefix_Addr x) (Prefix_Addr y) in
   by_address p_10_0_0_0_24 p_10_0_0_0_25 = 0 /\
   walk 3 [p_10_0_0_0_24] [p_10_0_0_0_25] by_address
   = Ret [p_10_0_0_0_24; p_10_0_0_0_25]).
Proof. repeat split. Qed.

(** C2 (as amended): when the iterator is at a position where the next
    elements of [a] and of [b] compare equal, [Get] returns the element of
    [a] and [Inc] moves the cursor of [a] only; the equal element of [b] is
    not skipped: at a later position of the walk the cursor of [b] is still
    on it and [Get] returns it.  So the walk emits [len(a) + len(b)]
    elements with or without ties (the slices holding no zero prefix). *)
Theorem tie_emits_a_then_b (cmp : Prefix -> Prefix -> Z) (xs ys : list Prefix)
    (k : nat) (it : mergeIter) (x y : Prefix) :
  len xs + len ys <= max_int ->
  (k <= length xs + length ys)%nat ->
  (newMergeIter xs ys cmp ≫= Inc_n (N.of_nat k)) = Ret it ->
  index xs (ia it) = Ret x -> index ys (ib it) = Ret y -> cmp x y = 0 ->
  Get it = Ret x /\
  (exists it', Inc it = Ret it' /\ ia it' = ia it + 1 /\ ib it' = ib it) /\
  (exists (k' : nat) (it' : mergeIter),
      (k < k' < length xs + length ys)%nat /\
      (newMergeIter xs ys cmp ≫= Inc_n (N.of_nat k')) = Ret it' /\
      ib it' = ib it /\ lastA it' = false /\ Get it' = Ret y) /\
  (Forall (fun p => p <> Prefix_zero) xs -> Forall (fun p => p <> Prefix_zero) ys ->
   forall fuel, (length xs + length ys < fuel)%nat ->
                exists l, walk fuel xs ys cmp = Ret l /\
                          length l = (length xs + length ys)%nat).
Proof.
  intros Hfit Hk Hit Hx Hy Htie.
  assert (Hkfit : Z.of_nat k <= max_int) by (unfold len in Hfit; lia).
  rewrite fresh_Inc_n in Hit by done. injection Hit as <-.
  pose proof (cursors_sum cmp xs ys k) as Hsum.
  pose proof (cursors_cursors_ok cmp xs ys k) as Hok.
  set (i := (cursors cmp xs ys k).1) in *. set (j := (cursors cmp xs ys k).2) in *.
  unfold iter_at in Hx, Hy. cbn [ia ib] in Hx, Hy. rewrite index_of_nat in Hx, Hy.
  destruct (xs !! i) as [x'|] eqn:Hxi; [injection Hx as ->|done].
  destruct (ys !! j) as [y'|] eqn:Hyj; [injection Hy as ->|done].
  assert (Hnext : next_is_a cmp xs ys i j = true).
  { unfold next_is_a. rewrite Hxi, Hyj. apply Z.leb_le. lia. }
  split; [|split; [|split]].
  - rewrite Get_at by (done || lia). unfold current. rewrite Hxi, Hyj.
    destruct (Z.leb_spec (cmp x y) 0); [done|lia].
  - apply lookup_lt_Some in Hxi, Hyj.
    rewrite Inc_at, Hnext by (unfold len in Hfit; lia).
    eexists. split; [reflexivity|]. unfold iter_at. cbn [ia ib]. lia.
  - destruct (cursors_b_visit cmp xs ys j (length xs + length ys)) as (k' & Hk' & Hj' & Hn').
    { rewrite cursors_total. simpl. by apply lookup_lt_Some in Hyj. }
    assert (Hlater : (k < k')%nat).
    { destruct (decide (k < k')%nat) as [|Hnot]; [done|exfalso].
      destruct (decide (k' = k)) as [->|Hne]; [fold i j in Hn'; congruence|].
      pose proof (cursors_b_mono cmp xs ys (S k') k ltac:(lia)) as Hmono.
      rewrite cursors_S, Hn' in Hmono. simpl in Hmono. fold j in Hmono. lia. }
    exists k', (iter_at cmp xs ys (cursors cmp xs ys k').1 (cursors cmp xs ys k').2).
    split; [lia|]. split; [apply fresh_Inc_n; unfold len in Hfit; lia|].
    pose proof (cursors_sum cmp xs ys k') as Hsum'.
    pose proof (cursors_cursors_ok cmp xs ys k') as Hok'.
    split; [unfold iter_at; cbn [ib]; by rewrite Hj'|]. split; [exact Hn'|].
    rewrite Get_at by (done || unfold len in Hfit; lia).
    unfold current, next_is_a in *. rewrite Hj' in *. rewrite Hyj in *.
    destruct (xs !! (cursors cmp xs ys k').1); [by rewrite Hn'|done].
  - intros Hxs Hys fuel Hfuel. exists (merge_spec cmp xs ys).
    split; [by apply walk_no_zero|apply merge_spec_length].
Qed.

Lemma tie_emits_a_then_b_witness :
  exists (k' : nat) (it' : mergeIter),
    (0 < k' < 2)%nat /\
    (newMergeIter [p_10_0_0_0_24] [p_10_0_0_0_24] PrefixCompare ≫= Inc_n (N.of_nat k'))
    = Ret it' /\
    ib it' = 0 /\ lastA it' = false /\ Get it' = Ret p_10_0_0_0_24.
Proof.
  refine (proj1 (proj2 (proj2
    (tie_emits_a_then_b PrefixCompare [p_10_0_0_0_24] [p_10_0_0_0_24] 0
       (mkIter [p_10_0_0_0_24] [p_10_0_0_0_24] 0 0 PrefixCompare true)
       p_10_0_0_0_24 p_10_0_0_0_24 _ _ _ _ _ _)))).
  - vm_compute. discriminate.
  - simpl. lia.
  - reflexivity.
  - reflexivity.
  - reflexivity.
  - reflexivity.
Defined.

(** C8: on slices without zero prefixes, at every position of the walk
    (any number of [Inc] that an [int] can count), [Get] returns the zero
    prefix exactly when both cursors are at or past the end of their slice,
    which is exactly when all [len(a) + len(b)] elements have been emitted;
    before that it returns the element at the current position of the
    merge, which is not the zero prefix. *)
Theorem Get_zero_iff_exhausted (cmp : Prefix -> Prefix -> Z) (xs ys : list Prefix) (k : nat) :
  len xs + len ys <= max_int ->
  Forall (fun p => p <> Prefix_zero) xs -> Forall (fun p => p <> Prefix_zero) ys ->
  Z.of_nat k <= max_int ->
  exists it,
    (newMergeIter xs ys cmp ≫= Inc_n (N.of_nat k)) = Ret it /\
    (Get it = Ret Prefix_zero <-> ia it = len xs /\ len ys <= ib it) /\
    (ia it = len xs /\ len ys <= ib it <-> (length xs + length ys <= k)%nat) /\
    ((k < length xs + length ys)%nat ->
     exists x, Get it = Ret x /\ merge_spec cmp xs ys !! k = Some x /\ x <> Prefix_zero).
Proof.
  intros Hfit Hxs Hys Hk.
  exists (iter_at cmp xs ys (cursors cmp xs ys k).1 (cursors cmp xs ys k).2).
  split; [by apply fresh_Inc_n|].
  pose proof (cursors_sum cmp xs ys k) as Hsum.
  pose proof (cursors_cursors_ok cmp xs ys k) as Hok.
  pose proof (current_lookup cmp xs ys k) as Hcur.
  set (i := (cursors cmp xs ys k).1) in *. set (j := (cursors cmp xs ys k).2) in *.
  rewrite Get_at by (done || lia). unfold iter_at. cbn [ia ib].
  assert (Hnz : forall x, current cmp xs ys i j = Some x -> x <> Prefix_zero).
  { intros x Hx. apply current_elem_of in Hx as [Hin|Hin].
    - by apply (proj1 (Forall_forall _ _) Hxs).
    - by apply (proj1 (Forall_forall _ _) Hys). }
  assert (Hends : Z.of_nat i = len xs /\ len ys <= Z.of_nat j <->
                  (length xs + length ys <= k)%nat).
  { destruct Hok as [Hi Hj]. unfold len. lia. }
  split; [|split; [exact Hends|]].
  - split.
    + intros Hget. destruct (current cmp xs ys i j) as [x|] eqn:Hx.
      * simpl in Hget. injection Hget as ->. by destruct (Hnz _ eq_refl).
      * apply current_None in Hx. destruct Hok as [Hi _]. unfold len. lia.
    + intros [Hi Hj]. assert (Hnone : current cmp xs ys i j = None).
      { apply current_None. unfold len in *. lia. }
      by rewrite Hnone.
  - intros Hlt. destruct (current cmp xs ys i j) as [x|] eqn:Hx.
    + exists x. split; [done|]. split; [by rewrite <- Hcur|by apply Hnz].
    + apply current_None in Hx. lia.
Qed.

Lemma Get_zero_iff_exhausted_witness :
  exists it,
    (newMergeIter [p_10_0_0_0_24; p_10_0_2_0_24] [p_10_0_1_0_24] PrefixCompare
       ≫= Inc_n (N.of_nat 3)) = Ret it /\
    (Get it = Ret Prefix_zero <-> ia it = 2 /\ 1 <= ib it).
Proof.
  destruct (Get_zero_iff_exhausted PrefixCompare
              [p_10_0_0_0_24; p_10_0_2_0_24] [p_10_0_1_0_24] 3)
    as (it & Hit & Hget & _).
  - vm_compute. discriminate.
  - repeat constructor; discriminate.
  - repeat constructor; discriminate.
  - vm_compute. discriminate.
  - exists it. by split.
Defined.

(** *** Calls after the walk, and the limit of an [int] *)

Lemma wrap_int_add_l (x y : Z) : wrap_int (wrap_int x + y) = wrap_int (x + y).
Proof.
  unfold wrap_int. f_equal.
  replace ((x + 2 ^ 63) `mod` 2 ^ 64 - 2 ^ 63 + y + 2 ^ 63)
    with ((x + 2 ^ 63) `mod` 2 ^ 64 + y) by lia.
  rewrite Z.add_mod_idemp_l by lia. f_equal. lia.
Qed.

(** [Inc_n] is [n] calls of [Inc] in a row. *)
Lemma Inc_n_bind (n : N) (m : exec mergeIter) :
  N.iter n (fun r => it' ← r; Inc it') m = (m ≫= Inc_n n).
Proof.
  destruct m as [it|e|]; [reflexivity| |].
  - induction n as [|n IH] using N.peano_ind; [done|]. by rewrite N.iter_succ, IH.
  - induction n as [|n IH] using N.peano_ind; [done|]. by rewrite N.iter_succ, IH.
Qed.

Lemma Inc_n_succ (n : N) (it : mergeIter) :
  Inc_n (N.succ n) it = (Inc it ≫= Inc_n n).
Proof.
  unfold Inc_n at 1. rewrite N.iter_succ_r, exec_bind_ret. apply Inc_n_bind.
Qed.

Lemma run_Incs_then_Get (k : nat) (it : mergeIter) :
  run (replicate k CallInc ++ [CallGet]) it
  = (it' ← Inc_n (N.of_nat k) it; p ← Get it'; mret (it', [p])).
Proof.
  revert it. induction k as [|k IH]; intros it.
  - cbn [replicate app run]. change (Inc_n (N.of_nat 0) it) with (Ret it).
    rewrite exec_bind_ret. by destruct (Get it).
  - rewrite Nat2N.inj_succ, Inc_n_succ. cbn [replicate app run].
    destruct (Inc it) as [it1| |]; [|done..].
    rewrite !exec_bind_ret. apply IH.
Qed.

(** With both slices empty every [Inc] advances the cursor of [b], with the
    wrap-around of an [int]. *)
Lemma Inc_n_empty (cmp : Prefix -> Prefix -> Z) (n : N) (j : Z) :
  Inc_n n (mkIter [] [] 0 j cmp false)
  = Ret (mkIter [] [] 0 (if (n =? 0)%N then j else wrap_int (j + Z.of_N n)) cmp false).
Proof.
  induction n as [|n IH] using N.peano_ind; [done|].
  unfold Inc_n in *. rewrite N.iter_succ, IH, exec_bind_ret.
  replace (N.succ n =? 0)%N with false by (symmetry; apply N.eqb_neq; lia).
  destruct (N.eqb_spec n 0) as [->|Hn].
  - reflexivity.
  - unfold Inc, set_ib, set_lastA, nextA. cbn [lastA ia ib a b MergeIter.cmp].
    rewrite wrap_int_add_l. change (0 <? len []) with false. cbn [andb].
    rewrite !exec_bind_ret. do 3 f_equal. lia.
Qed.

(** C9 (as amended): for slices whose lengths add up to an [int], and any
    sequence of [Get] and [Inc] calls with at most [max_int = 2^63 - 1]
    calls of [Inc] (calls after the end of the walk included), no call
    panics, and afterwards: [lastA] implies [0 <= ia < len(a)]; when the
    iterator is not exhausted and [lastA] is false, [0 <= ib < len(b)]; and
    when it is exhausted [Get] returns the zero prefix. *)
Theorem calls_stay_in_bounds (cmp : Prefix -> Prefix -> Z) (xs ys : list Prefix)
    (cs : list call) :
  len xs + len ys <= max_int ->
  Z.of_nat (count_Inc cs) <= max_int ->
  exists (it0 it : mergeIter) (outs : list Prefix),
    newMergeIter xs ys cmp = Ret it0 /\
    run cs it0 = Ret (it, outs) /\
    (lastA it = true -> 0 <= ia it < len xs) /\
    (ia it + ib it < len xs + len ys -> lastA it = false -> 0 <= ib it < len ys) /\
    (len xs + len ys <= ia it + ib it -> Get it = Ret Prefix_zero) /\
    (exists p, Get it = Ret p).
Proof.
  intros Hfit Hcs.
  destruct (run_at cmp xs ys Hfit cs 0 0) as (i & j & outs & Hrun & Hok & Hsum).
  { split; lia. }
  { lia. }
  exists (iter_at cmp xs ys 0 0), (iter_at cmp xs ys i j), outs.
  split; [apply newMergeIter_at|]. split; [exact Hrun|].
  change (ia (iter_at cmp xs ys i j)) with (Z.of_nat i).
  change (ib (iter_at cmp xs ys i j)) with (Z.of_nat j).
  change (lastA (iter_at cmp xs ys i j)) with (next_is_a cmp xs ys i j).
  split; [|split; [|split]].
  - intros Hn. apply next_is_a_lt in Hn. unfold len. lia.
  - intros Hleft Hn. destruct Hok as [Hi Hj].
    destruct (decide (i < length xs)%nat) as [Hlt|Hge].
    + pose proof (next_is_b_lt cmp xs ys i j Hn Hlt). unfold len. lia.
    + unfold len in *. lia.
  - intros Hdone. rewrite Get_at by (done || lia).
    assert (Hnone : current cmp xs ys i j = None).
    { apply current_None. destruct Hok as [Hi Hj]. unfold len in *. lia. }
    by rewrite Hnone.
  - rewrite Get_at by (done || lia). by eexists.
Qed.

Lemma calls_stay_in_bounds_witness :
  exists (it0 it : mergeIter) (outs : list Prefix),
    newMergeIter [p_10_0_0_0_24] [p_10_0_1_0_24] PrefixCompare = Ret it0 /\
    run [CallGet; CallInc; CallGet; CallInc; CallGet; CallInc; CallInc; CallGet] it0
    = Ret (it, outs) /\
    Get it = Ret Prefix_zero.
Proof.
  destruct (calls_stay_in_bounds PrefixCompare [p_10_0_0_0_24] [p_10_0_1_0_24]
              [CallGet; CallInc; CallGet; CallInc; CallGet; CallInc; CallInc; CallGet])
    as (it0 & it & outs & Hnew & Hrun & _ & _ & Hget & _).
  - vm_compute. discriminate.
  - vm_compute. discriminate.
  - exists it0, it, outs. split; [done|]. split; [done|].
    apply Hget. vm_compute in Hnew. injection Hnew as <-.
    vm_compute in Hrun. injection Hrun as <- _.
    vm_compute. discriminate.
Defined.

(** C9 (the claim as stated fails): the cursors are [int]s, and [Inc] keeps
    incrementing the cursor of [b] after the walk.  On two empty slices the
    iterator is exhausted from the start; after 2^63 calls of [Inc] the
    cursor has wrapped around to -2^63, the exhaustion test of [Get] no
    longer holds, and [Get] reads [b] at a negative index: it panics instead
    of returning the zero prefix. *)
Lemma Get_panics_after_int_overflow :
  (exists it,
      (newMergeIter [] [] PrefixCompare ≫= Inc_n (2 ^ 63)%N) = Ret it /\
      a it = [] /\ b it = [] /\ ia it = 0 /\ ib it = - 2 ^ 63 /\ lastA it = false /\
      Get it = Panics IndexOutOfRange) /\
  (forall (k : nat) (it0 : mergeIter),
      N.of_nat k = (2 ^ 63)%N ->
      newMergeIter [] [] PrefixCompare = Ret it0 ->
      run (replicate k CallInc ++ [CallGet]) it0 = Panics IndexOutOfRange).
Proof.
  assert (Hrun : (newMergeIter [] [] PrefixCompare ≫= Inc_n (2 ^ 63)%N)
                 = Ret (mkIter [] [] 0 (- 2 ^ 63) PrefixCompare false)).
  { change (newMergeIter [] [] PrefixCompare)
      with (Ret (mkIter [] [] 0 0 PrefixCompare false)).
    rewrite exec_bind_ret, Inc_n_empty. reflexivity. }
  split.
  - exists (mkIter [] [] 0 (- 2 ^ 63) PrefixCompare false).
    split; [exact Hrun|]. repeat split.
  - intros k it0 Hk Hnew. rewrite run_Incs_then_Get, Hk.
    rewrite Hnew, exec_bind_ret in Hrun. rewrite Hrun. reflexivity.
Qed.

(** * Further properties of the code *)

(** ** Pool identifiers: what the parser returns *)

(** What [strings.Split] yields determines the input: the first segment has
    no separator, and the rest of the input, after one separator, splits
    into the other segments. *)
Lemma Split_cons_inv (sep : ascii) (s x : string) (l : list string) :
  Split sep s = x :: l ->
  contains sep x = false /\
  match l with
  | [] => s = x
  | _ :: _ => exists t, s = x +:+ String sep t /\ Split sep t = l
  end.
Proof.
  revert x l. induction s as [|c s IH]; intros x l; simpl.
  - intros [= <- <-]. done.
  - case_decide as Hc.
    + intros [= <- <-]. split; [done|].
      pose proof (Split_not_nil sep s) as Hnil.
      destruct (Split sep s) as [|y k] eqn:Hs; [done|].
      exists s. subst c. by rewrite append_nil_l.
    + destruct (Split sep s) as [|y k] eqn:Hs; [by destruct (Split_not_nil sep s)|].
      intros [= <- <-]. destruct (IH y k eq_refl) as [Hy Hrest].
      split; [simpl; by rewrite bool_decide_false|].
      destruct k as [|y' k].
      * by subst s.
      * destruct Hrest as (t & -> & Ht). exists t. by rewrite append_cons.
Qed.

Lemma Split_3_inv (s p0 p1 p2 : string) :
  Split "/" s = [p0; p1; p2] ->
  s = p0 +:+ "/" +:+ p1 +:+ "/" +:+ p2 /\
  contains "/" p0 = false /\ contains "/" p1 = false /\ contains "/" p2 = false.
Proof.
  intros Hs.
  destruct (Split_cons_inv _ _ _ _ Hs) as [H0 (t1 & -> & Hs1)].
  destruct (Split_cons_inv _ _ _ _ Hs1) as [H1 (t2 & -> & Hs2)].
  destruct (Split_cons_inv _ _ _ _ Hs2) as [H2 ->].
  done.
Qed.

Lemma Split_5_inv (s p0 p1 p2 p3 p4 : string) :
  Split "/" s = [p0; p1; p2; p3; p4] ->
  s = p0 +:+ "/" +:+ p1 +:+ "/" +:+ p2 +:+ "/" +:+ p3 +:+ "/" +:+ p4 /\
  contains "/" p0 = false /\ contains "/" p1 = false /\ contains "/" p2 = false /\
  contains "/" p3 = false /\ contains "/" p4 = false.
Proof.
  intros Hs.
  destruct (Split_cons_inv _ _ _ _ Hs) as [H0 (t1 & -> & Hs1)].
  destruct (Split_cons_inv _ _ _ _ Hs1) as [H1 (t2 & -> & Hs2)].
  destruct (Split_cons_inv _ _ _ _ Hs2) as [H2 (t3 & -> & Hs3)].
  destruct (Split_cons_inv _ _ _ _ Hs3) as [H3 (t4 & -> & Hs4)].
  destruct (Split_cons_inv _ _ _ _ Hs4) as [H4 ->].
  done.
Qed.

Section PoolID_parser.

Context `{NetipText}.

(** The result of [PoolIDFromString], spelled out by the number of
    segments of the input. *)
Lemma PoolIDFromString_result (str : string) (pID : PoolID) (r : option error) :
  PoolIDFromString str = Ret (pID, r) ->
  (pID = PoolID_zero /\ r = Some (InvalidParameterErrorf str) /\
   (str = "" \/ (len (Split "/" str) <> 3 /\ len (Split "/" str) <> 5))) \/
  (exists p0 p1 p2, str <> "" /\ Split "/" str = [p0; p1; p2] /\
     match ParsePrefix (p1 +:+ "/" +:+ p2) with
     | Some q => pID = mkPoolID p0 (mkSubnetKey q Prefix_zero) /\ r = None
     | None => pID = mkPoolID p0 (mkSubnetKey Prefix_zero Prefix_zero) /\
               r = Some (InvalidParameterErrorf str)
     end) \/
  (exists p0 p1 p2 p3 p4, str <> "" /\ Split "/" str = [p0; p1; p2; p3; p4] /\
     match ParsePrefix (p1 +:+ "/" +:+ p2), ParsePrefix (p3 +:+ "/" +:+ p4) with
     | Some q, Some q' => pID = mkPoolID p0 (mkSubnetKey q q') /\ r = None
     | Some q, None => pID = mkPoolID p0 (mkSubnetKey q Prefix_zero) /\
                       r = Some (InvalidParameterErrorf str)
     | None, _ => pID = mkPoolID p0 (mkSubnetKey Prefix_zero Prefix_zero) /\
                  r = Some (InvalidParameterErrorf str)
     end).
Proof.
  intros Hrun.
  destruct (decide (str = "")) as [Hempty|Hempty].
  { rewrite PoolIDFromString_other in Hrun by by left.
    injection Hrun as <- <-. left. split; [done|]. split; [done|by left]. }
  destruct (Split "/" str) as [|p0 [|p1 [|p2 [|p3 [|p4 [|p5 rest]]]]]] eqn:Hsplit.
  1-3, 5, 7:
    rewrite PoolIDFromString_other in Hrun
      by (right; rewrite Hsplit; unfold len; simpl; lia);
    injection Hrun as <- <-; left; (split; [done|]); (split; [done|]);
    right; unfold len; simpl; lia.
  - right; left. exists p0, p1, p2. split; [done|]. split; [done|].
    rewrite (PoolIDFromString_3 str p0 p1 p2) in Hrun by done.
    destruct (ParsePrefix (p1 +:+ "/" +:+ p2)); by injection Hrun as <- <-.
  - right; right. exists p0, p1, p2, p3, p4. split; [done|]. split; [done|].
    rewrite (PoolIDFromString_5 str p0 p1 p2 p3 p4) in Hrun by done.
    destruct (ParsePrefix (p1 +:+ "/" +:+ p2));
      [destruct (ParsePrefix (p3 +:+ "/" +:+ p4))|]; by injection Hrun as <- <-.
Qed.

(** X1: when [PoolIDFromString] returns an error, the identifier it returns
    with it is only partly filled: its child subnet is always the zero
    prefix, and its subnet is the zero prefix too unless the input had five
    segments of which the second and third parsed and the fourth and fifth
    did not; in that case the address space and the subnet are the parsed
    ones.  For an empty input or a wrong number of segments the identifier
    is the zero value. *)
Theorem PoolIDFromString_error_result (str : string) (pID : PoolID) (e : error) :
  PoolIDFromString str = Ret (pID, Some e) ->
  ChildSubnet (key pID) = Prefix_zero /\
  (str = "" \/ (len (Split "/" str) <> 3 /\ len (Split "/" str) <> 5) ->
   pID = PoolID_zero) /\
  (Subnet (key pID) <> Prefix_zero ->
   exists p0 p1 p2 p3 p4,
     Split "/" str = [p0; p1; p2; p3; p4] /\
     AddressSpace pID = p0 /\
     ParsePrefix (p1 +:+ "/" +:+ p2) = Some (Subnet (key pID)) /\
     ParsePrefix (p3 +:+ "/" +:+ p4) = None).
Proof.
  intros Hrun.
  destruct (PoolIDFromString_result _ _ _ Hrun)
    as [(-> & _ & Hcase)|[(p0 & p1 & p2 & Hne & Hs & Hres)
                         |(p0 & p1 & p2 & p3 & p4 & Hne & Hs & Hres)]].
  - done.
  - destruct (ParsePrefix (p1 +:+ "/" +:+ p2)) as [q|]; destruct Hres as [-> Hr]; [done|].
    split; [done|]. split; [|done].
    intros [?|[Hl _]]; [done|]. rewrite Hs in Hl. by unfold len in Hl.
  - destruct (ParsePrefix (p1 +:+ "/" +:+ p2)) as [q|] eqn:Hq;
      [destruct (ParsePrefix (p3 +:+ "/" +:+ p4)) as [q'|] eqn:Hq'|];
      destruct Hres as [-> Hr]; try done.
    + split; [done|]. split.
      * intros [?|[_ Hl]]; [done|]. rewrite Hs in Hl. by unfold len in Hl.
      * intros _. by exists p0, p1, p2, p3, p4.
    + split; [done|]. split; [|done].
      intros [?|[_ Hl]]; [done|]. rewrite Hs in Hl. by unfold len in Hl.
Qed.

(** X2: when [PoolIDFromString] succeeds, the input is the address space it
    returns, without any ['/'], followed by ['/'] and two or four more
    segments without ['/']: the second and third segments joined by ['/']
    parse to the subnet, and either there is nothing more and the child
    subnet is the zero prefix, or the fourth and fifth segments parse to the
    child subnet. *)
Theorem PoolIDFromString_success_shape (str : string) (pID : PoolID) :
  PoolIDFromString str = Ret (pID, None) ->
  contains "/" (AddressSpace pID) = false /\
  exists a n,
    contains "/" a = false /\ contains "/" n = false /\
    ParsePrefix (a +:+ "/" +:+ n) = Some (Subnet (key pID)) /\
    ((str = AddressSpace pID +:+ "/" +:+ a +:+ "/" +:+ n /\
      ChildSubnet (key pID) = Prefix_zero) \/
     (exists a' n',
         contains "/" a' = false /\ contains "/" n' = false /\
         str = AddressSpace pID +:+ "/" +:+ a +:+ "/" +:+ n +:+ "/" +:+ a' +:+ "/" +:+ n' /\
         ParsePrefix (a' +:+ "/" +:+ n') = Some (ChildSubnet (key pID)))).
Proof.
  intros Hrun.
  destruct (PoolIDFromString_result _ _ _ Hrun)
    as [(_ & ? & _)|[(p0 & p1 & p2 & Hne & Hs & Hres)
                    |(p0 & p1 & p2 & p3 & p4 & Hne & Hs & Hres)]]; [done| |].
  - destruct (Split_3_inv _ _ _ _ Hs) as (-> & H0 & H1 & H2).
    destruct (ParsePrefix (p1 +:+ "/" +:+ p2)) as [q|] eqn:Hq; destruct Hres as [-> Hr]; [|done].
    split; [done|]. exists p1, p2. split; [done|]. split; [done|]. split; [done|].
    by left.
  - destruct (Split_5_inv _ _ _ _ _ _ Hs) as (-> & H0 & H1 & H2 & H3 & H4).
    destruct (ParsePrefix (p1 +:+ "/" +:+ p2)) as [q|] eqn:Hq;
      [destruct (ParsePrefix (p3 +:+ "/" +:+ p4)) as [q'|] eqn:Hq'|];
      destruct Hres as [-> Hr]; try done.
    split; [done|]. exists p1, p2. split; [done|]. split; [done|]. split; [done|].
    right. by exists p3, p4.
Qed.

(** X3: the parser accepts an empty address space.  For every address space
    without ['/'], the empty one included, and every two segments without
    ['/'] that parse as a prefix, the three joined by ['/'] are read as the
    identifier of that address space and prefix, without child subnet; when
    the two segments do not parse, the error comes with the address space
    already filled in. *)
Theorem PoolIDFromString_three_segments (space a n : string) :
  contains "/" space = false -> contains "/" a = false -> contains "/" n = false ->
  PoolIDFromString (space +:+ "/" +:+ a +:+ "/" +:+ n) =
    match ParsePrefix (a +:+ "/" +:+ n) with
    | Some q => Ret (mkPoolID space (mkSubnetKey q Prefix_zero), None)
    | None => Ret (mkPoolID space (mkSubnetKey Prefix_zero Prefix_zero),
                   Some (InvalidParameterErrorf (space +:+ "/" +:+ a +:+ "/" +:+ n)))
    end.
Proof.
  intros Hs Ha Hn.
  apply PoolIDFromString_3; [apply append_sep_not_empty|].
  by apply Split_PoolID_String_3.
Qed.

(** The string form of a valid identifier is read back (the statement of
    the round trip, for use in what follows). *)
Lemma PoolIDFromString_String (p : PoolID) :
  netip_text_contract ->
  contains "/" (AddressSpace p) = false ->
  ValidPrefix (Subnet (key p)) ->
  ChildSubnet (key p) = Prefix_zero \/ ValidPrefix (ChildSubnet (key p)) ->
  PoolIDFromString (PoolID_String p) = Ret (p, None).
Proof.
  intros Hnetip Hspace Hsub Hchild.
  destruct p as [space [sub child]]. simpl in *.
  destruct (Hnetip sub Hsub) as [(a & n & Hstr & Ha & Hn) Hparse].
  unfold PoolID_String. simpl.
  destruct Hchild as [->|Hchild].
  - rewrite bool_decide_true by done.
    rewrite (PoolIDFromString_3 _ space a n);
      [by rewrite <- Hstr, Hparse|apply append_sep_not_empty|].
    rewrite Hstr. by apply Split_PoolID_String_3.
  - assert (Hnz : child <> Prefix_zero).
    { intros ->. destruct Hchild as [_ Hv]. discriminate. }
    destruct (Hnetip child Hchild) as [(a' & n' & Hstr' & Ha' & Hn') Hparse'].
    rewrite bool_decide_false by done.
    rewrite (PoolIDFromString_5 _ space a n a' n');
      [by rewrite <- Hstr, Hparse, <- Hstr', Hparse'|apply append_sep_not_empty|].
    rewrite Hstr, Hstr'. by apply Split_PoolID_String_5.
Qed.

(** X4: the string form is a key: two valid identifiers (address space
    without ['/'], valid subnet, child subnet zero or valid) with the same
    string form are the same identifier. *)
Theorem PoolID_String_inj (p q : PoolID) :
  netip_text_contract ->
  contains "/" (AddressSpace p) = false -> contains "/" (AddressSpace q) = false ->
  ValidPrefix (Subnet (key p)) -> ValidPrefix (Subnet (key q)) ->
  ChildSubnet (key p) = Prefix_zero \/ ValidPrefix (ChildSubnet (key p)) ->
  ChildSubnet (key q) = Prefix_zero \/ ValidPrefix (ChildSubnet (key q)) ->
  PoolID_String p = PoolID_String q -> p = q.
Proof.
  intros Hnetip Hp Hq Hsp Hsq Hcp Hcq Heq.
  pose proof (PoolIDFromString_String p Hnetip Hp Hsp Hcp) as Hrp.
  pose proof (PoolIDFromString_String q Hnetip Hq Hsq Hcq) as Hrq.
  rewrite Heq, Hrq in Hrp. by injection Hrp.
Qed.

End PoolID_parser.

Lemma PoolIDFromString_error_result_witness :
  let pID := mkPoolID "LocalDefault" (mkSubnetKey p_10_0_0_0_23 Prefix_zero) in
  @PoolIDFromString netip_text "LocalDefault/10.0.0.0/23/10.0.1.0/x"
  = Ret (pID, Some (InvalidParameterErrorf "LocalDefault/10.0.0.0/23/10.0.1.0/x")) /\
  ChildSubnet (key pID) = Prefix_zero.
Proof.
  intros pID.
  assert (Hrun : @PoolIDFromString netip_text "LocalDefault/10.0.0.0/23/10.0.1.0/x"
                 = Ret (pID, Some (InvalidParameterErrorf
                                     "LocalDefault/10.0.0.0/23/10.0.1.0/x")))
    by (vm_compute; reflexivity).
  split; [exact Hrun|].
  exact (proj1 (@PoolIDFromString_error_result netip_text _ _ _ Hrun)).
Defined.

Lemma PoolIDFromString_success_shape_witness :
  let pID := mkPoolID "LocalDefault" (mkSubnetKey p_10_0_0_0_23 p_10_0_1_0_25) in
  @PoolIDFromString netip_text "LocalDefault/10.0.0.0/23/10.0.1.0/25" = Ret (pID, None) /\
  contains "/" (AddressSpace pID) = false.
Proof.
  intros pID.
  assert (Hrun : @PoolIDFromString netip_text "LocalDefault/10.0.0.0/23/10.0.1.0/25"
                 = Ret (pID, None)) by (vm_compute; reflexivity).
  split; [exact Hrun|].
  exact (proj1 (@PoolIDFromString_success_shape netip_text _ _ Hrun)).
Defined.

Lemma PoolIDFromString_three_segments_witness :
  @PoolIDFromString netip_text "/10.0.0.0/23"
  = Ret (mkPoolID "" (mkSubnetKey p_10_0_0_0_23 Prefix_zero), None).
Proof.
  refine (eq_trans (@PoolIDFromString_three_segments netip_text "" "10.0.0.0" "23" _ _ _) _);
    reflexivity.
Defined.

Lemma PoolID_String_inj_witness :
  mkPoolID "LocalDefault" (mkSubnetKey p_10_0_0_0_23 p_10_0_1_0_25)
  = mkPoolID "LocalDefault" (mkSubnetKey p_10_0_0_0_23 p_10_0_1_0_25).
Proof.
  apply (@PoolID_String_inj netip_text).
  - apply netip_text_meets_contract.
  - reflexivity.
  - reflexivity.
  - apply ValidPrefix_PrefixFrom4; lia.
  - apply ValidPrefix_PrefixFrom4; lia.
  - right. apply ValidPrefix_PrefixFrom4; lia.
  - right. apply ValidPrefix_PrefixFrom4; lia.
  - reflexivity.
Defined.

(** ** Capacity: address families, nesting and invalid prefixes *)

Lemma ValidPrefix_zone (p : Prefix) :
  ValidPrefix p ->
  (z (ip p) = z4 /\ BitLen (Prefix_Addr p) = 32) \/
  (z (ip p) = z6noz /\ BitLen (Prefix_Addr p) = 128).
Proof.
  intros [[_ [H0|[[Hz|Hz] _]]] Hv]; unfold IsValid, Prefix_Addr, BitLen in *.
  - rewrite H0 in Hv. discriminate.
  - left. by rewrite Hz.
  - right. by rewrite Hz.
Qed.

(** X5: [Is6] of a key looks at the subnet only.  For a valid subnet it is
    true exactly for a 128-bit address, and a key that is not [Is6] has a
    subnet of between 1 and 2^32 addresses, so its capacity is never zero
    and never needs more than 64 bits. *)
Theorem SubnetKey_Is6_capacity (k : SubnetKey) :
  ValidPrefix (Subnet k) ->
  (SubnetKey_Is6 k = true <-> BitLen (Prefix_Addr (Subnet k)) = 128) /\
  (SubnetKey_Is6 k = false <-> BitLen (Prefix_Addr (Subnet k)) = 32) /\
  (SubnetKey_Is6 k = false ->
   1 <= to_Z (subnetCapacity (Subnet k)) <= 2 ^ 32 /\
   Hi (subnetCapacity (Subnet k)) = 0).
Proof.
  intros Hv. destruct (ValidPrefix_bits _ Hv) as [Hb _].
  assert (His : (SubnetKey_Is6 k = true <-> BitLen (Prefix_Addr (Subnet k)) = 128) /\
                (SubnetKey_Is6 k = false <-> BitLen (Prefix_Addr (Subnet k)) = 32)).
  { unfold SubnetKey_Is6, Is6, Prefix_Addr.
    destruct (ValidPrefix_zone _ Hv) as [[Hz Hl]|[Hz Hl]];
      unfold Prefix_Addr in Hl; rewrite Hz, Hl; simpl; split; split; (done || lia). }
  split; [apply His|]. split; [apply His|].
  intros H4. apply His in H4.
  pose proof (subnetCapacity_pow2 _ Hv ltac:(lia)) as Hcap.
  pose proof (subnetCapacity_wf (Subnet k)) as [Hlo Hhi].
  assert (Hpow : 1 <= 2 ^ (BitLen (Prefix_Addr (Subnet k)) - Bits (Subnet k)) <= 2 ^ 32).
  { split; [apply (Z.pow_le_mono_r 2 0); lia|apply Z.pow_le_mono_r; lia]. }
  split; [lia|].
  unfold to_Z, is_u64 in *. nia.
Qed.

Lemma SubnetKey_Is6_capacity_witness :
  SubnetKey_Is6 (mkSubnetKey p_10_0_0_0_24 p6_2001_db8_64) = false /\
  1 <= to_Z (subnetCapacity p_10_0_0_0_24) <= 2 ^ 32.
Proof.
  destruct (SubnetKey_Is6_capacity (mkSubnetKey p_10_0_0_0_24 p6_2001_db8_64))
    as (_ & _ & Hcap).
  - apply ValidPrefix_PrefixFrom4; lia.
  - split; [reflexivity|]. exact (proj1 (Hcap eq_refl)).
Defined.

(** X6: among the valid prefixes, the capacity is the counter 0 exactly for
    the IPv6 prefixes of length 0; for every other valid prefix it is the
    power of two of its host bits, at least 1. *)
Theorem subnetCapacity_zero_iff (p : Prefix) :
  ValidPrefix p ->
  (subnetCapacity p = Zero <-> Is6 (Prefix_Addr p) = true /\ Bits p = 0) /\
  (subnetCapacity p <> Zero ->
   to_Z (subnetCapacity p) = 2 ^ (BitLen (Prefix_Addr p) - Bits p) /\
   1 <= to_Z (subnetCapacity p)).
Proof.
  intros Hv. destruct (ValidPrefix_bits _ Hv) as [Hb _].
  assert (H6 : Is6 (Prefix_Addr p) = true <-> BitLen (Prefix_Addr p) = 128).
  { unfold Is6, Prefix_Addr.
    destruct (ValidPrefix_zone _ Hv) as [[Hz Hl]|[Hz Hl]];
      unfold Prefix_Addr in Hl; rewrite Hz, Hl; simpl; split; (done || lia). }
  assert (Hsmall : BitLen (Prefix_Addr p) - Bits p < 128 ->
                   to_Z (subnetCapacity p) = 2 ^ (BitLen (Prefix_Addr p) - Bits p) /\
                   1 <= to_Z (subnetCapacity p)).
  { intros Hlt. rewrite subnetCapacity_pow2 by done.
    split; [done|]. apply (Z.pow_le_mono_r 2 0); lia. }
  split; [split|].
  - intros Hz.
    destruct (decide (BitLen (Prefix_Addr p) - Bits p < 128)) as [Hlt|Hge].
    + destruct (Hsmall Hlt) as [_ H1]. rewrite Hz in H1. by compute in H1.
    + assert (BitLen (Prefix_Addr p) = 128) by (destruct (ValidPrefix_zone _ Hv); lia).
      split; [by apply H6|lia].
  - intros [Hi H0]. apply H6 in Hi.
    apply subnetCapacity_128_host_bits; [done|lia].
  - intros Hnz. apply Hsmall.
    destruct (decide (BitLen (Prefix_Addr p) - Bits p < 128)) as [|Hge]; [done|].
    destruct Hnz. apply subnetCapacity_128_host_bits; [done|].
    destruct (ValidPrefix_zone _ Hv); lia.
Qed.

Lemma subnetCapacity_zero_iff_witness :
  subnetCapacity p6_2001_db8_64 <> Zero /\
  to_Z (subnetCapacity p6_2001_db8_64) = 2 ^ 64.
Proof.
  destruct (subnetCapacity_zero_iff p6_2001_db8_64) as [_ Hpow].
  - apply ValidPrefix_PrefixFrom16; unfold is_u64; lia.
  - split; [discriminate|]. exact (proj1 (Hpow ltac:(discriminate))).
Defined.

(** X7: capacities nest.  For two valid prefixes of one address family, the
    first no longer than the second and with fewer than 128 host bits, the
    capacity of the first is the capacity of the second times two to the
    difference of the lengths: a longer prefix never has more addresses,
    and its capacity divides that of the shorter one. *)
Theorem subnetCapacity_nested (p q : Prefix) :
  ValidPrefix p -> ValidPrefix q ->
  BitLen (Prefix_Addr p) = BitLen (Prefix_Addr q) ->
  Bits p <= Bits q ->
  BitLen (Prefix_Addr p) - Bits p < 128 ->
  to_Z (subnetCapacity p) = to_Z (subnetCapacity q) * 2 ^ (Bits q - Bits p) /\
  to_Z (subnetCapacity q) <= to_Z (subnetCapacity p).
Proof.
  intros Hp Hq Hlen Hle Hlt.
  destruct (ValidPrefix_bits _ Hp) as [Hbp _]. destruct (ValidPrefix_bits _ Hq) as [Hbq _].
  rewrite (subnetCapacity_pow2 p), (subnetCapacity_pow2 q) by (done || lia).
  rewrite <- Z.pow_add_r by lia.
  split; [f_equal; lia|apply Z.pow_le_mono_r; lia].
Qed.

Lemma subnetCapacity_nested_witness :
  to_Z (subnetCapacity p_10_0_0_0_23) = to_Z (subnetCapacity p_10_0_1_0_25) * 2 ^ 2.
Proof.
  refine (proj1 (subnetCapacity_nested p_10_0_0_0_23 p_10_0_1_0_25 _ _ _ _ _)).
  - apply ValidPrefix_PrefixFrom4; lia.
  - apply ValidPrefix_PrefixFrom4; lia.
  - reflexivity.
  - vm_compute. discriminate.
  - reflexivity.
Defined.

(** X8: [subnetCapacity] does not reject an invalid prefix.  [Bits] of an
    invalid prefix is -1, so the number of host bits it computes is the
    address length plus one: the result is 2 for the zero prefix (and any
    invalid prefix without address), 2^33 for an invalid prefix with an
    IPv4 address and the counter 0 for one with an IPv6 address. *)
Theorem subnetCapacity_invalid (p : Prefix) :
  Prefix_wf p -> IsValid p = false ->
  subnetCapacity p =
    match z (ip p) with
    | z0 => From64 2
    | z4 => From64 (2 ^ 33)
    | _ => Zero
    end.
Proof.
  intros [_ Hrange] Hv. unfold IsValid in Hv.
  assert (H0 : bitsPlusOne p = 0).
  { destruct Hrange as [?|[_ ?]]; [done|]. apply Z.ltb_ge in Hv. lia. }
  unfold subnetCapacity, Bits, Prefix_Addr, BitLen. rewrite H0.
  by destruct (z (ip p)).
Qed.

Lemma subnetCapacity_invalid_witness : subnetCapacity Prefix_zero = From64 2.
Proof.
  refine (subnetCapacity_invalid Prefix_zero _ _).
  - split; [|by left]. split; [|reflexivity]. split; unfold is_u64; simpl; lia.
  - reflexivity.
Defined.

(** ** The capacity and the availability of a pool *)

Lemma capacityRange_in_cases (p : PoolData) (order : list Prefix) :
  order ≡ₚ elements (children p) ->
  capacityRange_in order p =
    if bool_decide (children p = ∅) then Ret (subnetCapacity (Pool (addrs p)))
    else if capacity_sum (elements (children p)) <? 2 ^ 128
         then Ret (of_Z (capacity_sum (elements (children p))))
         else Panics Overflow.
Proof.
  intros Hperm. unfold capacityRange_in.
  case_bool_decide as Hsize.
  - apply size_empty_inv, leibniz_equiv in Hsize.
    by rewrite bool_decide_true.
  - rewrite bool_decide_false.
    2:{ intros He. apply Hsize. rewrite He. apply size_empty. }
    rewrite sum_capacity_spec by (split; unfold is_u64; simpl; lia).
    change (to_Z Zero) with 0. rewrite Z.add_0_l.
    by rewrite (capacity_sum_perm _ _ Hperm).
Qed.

(** X9: the only way [capacityRange] can fail is the overflow panic of the
    128-bit addition, and it does so exactly when the pool has children
    whose capacities add up to 2^128 or more, in whatever order the map is
    visited; a pool without children always gets a result. *)
Theorem capacityRange_panics_iff (p : PoolData) (order : list Prefix) :
  order ≡ₚ elements (children p) ->
  (capacityRange_in order p = Panics Overflow <->
   children p <> ∅ /\ 2 ^ 128 <= capacity_sum (elements (children p))) /\
  (capacityRange_in order p <> Panics Overflow ->
   exists u, capacityRange_in order p = Ret u /\ wf u).
Proof.
  intros Hperm. rewrite (capacityRange_in_cases p order Hperm).
  case_bool_decide as He.
  - split; [split; [done|by intros [? _]]|].
    intros _. eexists. split; [done|apply subnetCapacity_wf].
  - destruct (Z.ltb_spec (capacity_sum (elements (children p))) (2 ^ 128)) as [Hlt|Hge].
    + split; [split; [done|intros [_ ?]; lia]|].
      intros _. eexists. split; [done|apply of_Z_wf].
    + split; [by split|]. by intros [].
Qed.

Lemma capacityRange_panics_iff_witness :
  let p := mkPoolData (mkAddrSet p6_any_0 0) {[p6_low_half; p6_high_half]} Zero false in
  capacityRange p = Panics Overflow.
Proof.
  intros p.
  apply (proj1 (capacityRange_panics_iff p (elements (children p)) (Permutation_refl _))).
  split.
  - clear. simpl children. set_solver.
  - simpl children. rewrite capacity_sum_pair by discriminate. vm_compute. discriminate.
Defined.

(** X10: how the capacity follows the children.  When a child is added to
    a pool that already has children, the new capacity is the old one plus
    the capacity of the new child, by the same panicking addition; when the
    first child is added, the capacity changes from that of the tracked
    prefix to that of the child, whatever the tracked prefix is. *)
Theorem capacityRange_add_child (p q : PoolData) (c : Prefix) :
  c ∉ children p ->
  children q = {[c]} ∪ children p ->
  (children p = ∅ -> capacityRange q = Ret (subnetCapacity c)) /\
  (children p <> ∅ ->
   forall u, capacityRange p = Ret u ->
             capacityRange q = Add u (subnetCapacity c)) /\
  (children p <> ∅ ->
   capacityRange p = Panics Overflow -> capacityRange q = Panics Overflow).
Proof.
  intros Hc Hq.
  assert (Hsum : capacity_sum (elements (children q))
                 = to_Z (subnetCapacity c) + capacity_sum (elements (children p))).
  { rewrite Hq. rewrite (capacity_sum_perm _ (c :: elements (children p))); [done|].
    by apply elements_union_singleton. }
  assert (Hqne : children q <> ∅).
  { rewrite Hq. clear. set_solver. }
  pose proof (to_Z_bounds _ (subnetCapacity_wf c)) as Hcb.
  pose proof (capacity_sum_nonneg (elements (children p))) as Hpb.
  unfold capacityRange.
  rewrite (capacityRange_in_cases q _ (Permutation_refl _)).
  rewrite (capacityRange_in_cases p _ (Permutation_refl _)).
  rewrite (bool_decide_false (children q = ∅)) by done. rewrite Hsum.
  split; [|split].
  - intros He. rewrite He, elements_empty. simpl capacity_sum. rewrite Z.add_0_r.
    destruct (Z.ltb_spec (to_Z (subnetCapacity c)) (2 ^ 128)); [|lia].
    by rewrite of_Z_to_Z by apply subnetCapacity_wf.
  - intros Hne u. rewrite bool_decide_false by done.
    destruct (Z.ltb_spec (capacity_sum (elements (children p))) (2 ^ 128)) as [Hlt|Hge];
      [|done].
    intros [= <-]. rewrite Add_spec by (apply of_Z_wf || apply subnetCapacity_wf).
    rewrite to_Z_of_Z by lia. by rewrite (Z.add_comm (to_Z (subnetCapacity c))).
  - intros Hne. rewrite bool_decide_false by done.
    destruct (Z.ltb_spec (capacity_sum (elements (children p))) (2 ^ 128)) as [Hlt|Hge];
      [done|].
    intros _.
    destruct (Z.ltb_spec (to_Z (subnetCapacity c) + capacity_sum (elements (children p)))
                (2 ^ 128)); [lia|done].
Qed.

Lemma capacityRange_add_child_witness :
  capacityRange (mkPoolData (mkAddrSet p_10_0_0_0_23 0) {[p_10_0_1_0_25]} Zero false)
  = Ret (From64 128).
Proof.
  refine (eq_trans
    (proj1 (capacityRange_add_child
              (mkPoolData (mkAddrSet p_10_0_0_0_23 0) ∅ Zero false)
              (mkPoolData (mkAddrSet p_10_0_0_0_23 0) {[p_10_0_1_0_25]} Zero false)
              p_10_0_1_0_25 _ _) _) _).
  - simpl children. set_solver.
  - simpl children. set_solver.
  - reflexivity.
  - reflexivity.
Defined.

(** X11: the reported availability never exceeds what the pool holds.  For
    every pool whose cached range is a 128-bit value, the second result of
    [AvailableAddrs] is a [uint64] that is at most the cached range, and the
    first result is the count of the address tracker, whatever the children
    and the cached range are. *)
Theorem AvailableAddrs_never_over_reports (p : PoolData) :
  wf (availableRange p) ->
  (AvailableAddrs p).1 = Unselected (addrs p) /\
  0 <= (AvailableAddrs p).2 <= MaxUint64 /\
  (AvailableAddrs p).2 <= to_Z (availableRange p).
Proof.
  intros Hwf. split; [done|].
  unfold AvailableAddrs. simpl.
  rewrite Cmp_pos by (done || (split; unfold is_u64; simpl; lia)).
  change (to_Z (New 0 1)) with (2 ^ 64).
  destruct (availableRange p) as [lo hi].
  unfold wf, is_u64, to_Z, MaxUint64 in *. simpl in *.
  destruct (Z.ltb_spec (2 ^ 64) (hi * 2 ^ 64 + lo)); lia.
Qed.

Lemma AvailableAddrs_never_over_reports_witness :
  (AvailableAddrs (mkPoolData (mkAddrSet p6_2001_db8_64 7) ∅ (New 5 3) true)).2
  <= to_Z (New 5 3).
Proof.
  refine (proj2 (proj2 (AvailableAddrs_never_over_reports
                          (mkPoolData (mkAddrSet p6_2001_db8_64 7) ∅ (New 5 3) true) _))).
  split; unfold is_u64; simpl; lia.
Defined.

(** ** The merge iterator: cursors, order of emission, and what the walk keeps *)

Section merge_iterator_more.

Variable cmp : Prefix -> Prefix -> Z.
Variables xs ys : list Prefix.

Lemma cursors_a_mono (k k' : nat) :
  (k <= k')%nat -> ((cursors cmp xs ys k).1 <= (cursors cmp xs ys k').1)%nat.
Proof.
  induction 1 as [|k' _ IH]; [done|].
  rewrite cursors_S. destruct (next_is_a cmp xs ys _ _); simpl; lia.
Qed.

Lemma cursors_a_step (k k' : nat) :
  (k < k')%nat ->
  next_is_a cmp xs ys (cursors cmp xs ys k).1 (cursors cmp xs ys k).2 = true ->
  ((cursors cmp xs ys k).1 < (cursors cmp xs ys k').1)%nat.
Proof.
  intros Hlt Hn. pose proof (cursors_a_mono (S k) k' ltac:(lia)) as Hmono.
  rewrite cursors_S, Hn in Hmono. simpl in Hmono. lia.
Qed.

Lemma cursors_b_step (k k' : nat) :
  (k < k')%nat ->
  next_is_a cmp xs ys (cursors cmp xs ys k).1 (cursors cmp xs ys k).2 = false ->
  ((cursors cmp xs ys k).2 < (cursors cmp xs ys k').2)%nat.
Proof.
  intros Hlt Hn. pose proof (cursors_b_mono cmp xs ys (S k) k' ltac:(lia)) as Hmono.
  rewrite cursors_S, Hn in Hmono. simpl in Hmono. lia.
Qed.

Lemma sorted_lookup_le (l : list Prefix) (i j : nat) (x y : Prefix) :
  Transitive (cmp_le cmp) -> Sorted (cmp_le cmp) l ->
  l !! i = Some x -> l !! j = Some y -> (i <= j)%nat ->
  i = j \/ cmp_le cmp x y.
Proof.
  intros Htrans Hsorted. apply Sorted_StronglySorted in Hsorted; [|done].
  revert i j. induction Hsorted as [|u l Hl IH Hu]; intros i j Hi Hj Hij; [done|].
  destruct i as [|i]; destruct j as [|j]; simpl in *.
  - by left.
  - injection Hi as ->. right.
    apply (proj1 (Forall_forall _ _) Hu). by eapply list_elem_of_lookup_2.
  - lia.
  - destruct (IH i j Hi Hj ltac:(lia)) as [->|?]; [by left|by right].
Qed.

(** X12: after [k] calls of [Inc] on a fresh iterator ([k] within an
    [int]), the slices are the ones it was built from, the cursors add up to
    [k], the cursor of [a] is within [0..len(a)], the cursor of [b] is
    non-negative and passes [len(b)] only when [a] is used up and more than
    [len(a) + len(b)] calls were made. *)
Theorem Inc_keeps_cursors (k : nat) :
  Z.of_nat k <= max_int ->
  exists it,
    (newMergeIter xs ys cmp ≫= Inc_n (N.of_nat k)) = Ret it /\
    a it = xs /\ b it = ys /\
    ia it + ib it = Z.of_nat k /\
    0 <= ia it <= len xs /\ 0 <= ib it /\
    (ia it < len xs -> ib it <= len ys) /\
    ((k <= length xs + length ys)%nat -> ib it <= len ys).
Proof.
  intros Hk. eexists. split; [by apply fresh_Inc_n|].
  pose proof (cursors_sum cmp xs ys k) as Hsum.
  destruct (cursors_cursors_ok cmp xs ys k) as [Hi Hj].
  unfold iter_at. cbn [a b ia ib]. unfold len.
  repeat split; lia.
Qed.


(** X13: the order of emission between the two slices.  Under a transitive
    comparator and with both slices sorted, take a position at which the
    iterator emits an element [x] of [a] and a position at which it emits an
    element [y] of [b]: [x] is emitted before [y] exactly when
    [cmp(x, y) <= 0].  On a tie, everything equal in [a] comes out before
    the equal elements of [b]. *)
Theorem emission_order (ka kb : nat) (ita itb : mergeIter) (x y : Prefix) :
  Transitive (cmp_le cmp) ->
  Sorted (cmp_le cmp) xs -> Sorted (cmp_le cmp) ys ->
  len xs + len ys <= max_int ->
  Z.of_nat ka <= max_int -> Z.of_nat kb <= max_int ->
  (newMergeIter xs ys cmp ≫= Inc_n (N.of_nat ka)) = Ret ita ->
  (newMergeIter xs ys cmp ≫= Inc_n (N.of_nat kb)) = Ret itb ->
  lastA ita = true -> index xs (ia ita) = Ret x ->
  lastA itb = false -> index ys (ib itb) = Ret y ->
  Get ita = Ret x /\ Get itb = Ret y /\
  ((ka < kb)%nat <-> cmp x y <= 0).
Proof.
  intros Htrans Hxs Hys Hfit Hka Hkb Hita Hitb Hla Hx Hlb Hy.
  rewrite fresh_Inc_n in Hita, Hitb by done.
  injection Hita as <-. injection Hitb as <-.
  pose proof (cursors_sum cmp xs ys ka) as Hsa.
  pose proof (cursors_sum cmp xs ys kb) as Hsb.
  pose proof (cursors_cursors_ok cmp xs ys ka) as Hoka.
  pose proof (cursors_cursors_ok cmp xs ys kb) as Hokb.
  pose proof (cursors_a_mono ka kb) as Hamono.
  pose proof (cursors_a_mono kb ka) as Hamono'.
  pose proof (cursors_b_mono cmp xs ys ka kb) as Hbmono.
  pose proof (cursors_b_mono cmp xs ys kb ka) as Hbmono'.
  pose proof (fun H => cursors_a_step ka kb H Hla) as Hastep.
  pose proof (fun H => cursors_b_step kb ka H Hlb) as Hbstep.
  unfold iter_at in Hla, Hlb, Hx, Hy. cbn [lastA ia ib] in Hla, Hlb, Hx, Hy.
  rewrite !Get_at by (done || lia).
  set (i := (cursors cmp xs ys ka).1) in *. set (j' := (cursors cmp xs ys ka).2) in *.
  set (i' := (cursors cmp xs ys kb).1) in *. set (j := (cursors cmp xs ys kb).2) in *.
  rewrite index_of_nat in Hx, Hy.
  destruct (xs !! i) as [x0|] eqn:Hxi; [injection Hx as ->|done].
  destruct (ys !! j) as [y0|] eqn:Hyj; [injection Hy as ->|done].
  unfold current. unfold next_is_a in Hla, Hlb. rewrite Hxi in *. rewrite Hyj in *.
  split; [|split].
  - destruct (ys !! j') as [y'|]; [by rewrite Hla|done].
  - destruct (xs !! i') as [x'|]; [by rewrite Hlb|done].
  - split.
    + intros Hlt. specialize (Hbmono ltac:(lia)).
      destruct (lookup_lt_is_Some_2 ys j') as [y' Hy'].
      { apply lookup_lt_Some in Hyj. lia. }
      rewrite Hy' in Hla. apply Z.leb_le in Hla.
      destruct (sorted_lookup_le ys j' j y' y Htrans Hys Hy' Hyj Hbmono) as [Heq|Hle].
      * rewrite Heq, Hyj in Hy'. by injection Hy' as <-.
      * by apply (Htrans x y' y).
    + intros Hle. destruct (decide (ka < kb)%nat) as [|Hnot]; [done|exfalso].
      assert (Hne : ka <> kb).
      { intros ->. subst i i' j j'. rewrite Hyj in Hla.
        rewrite Hxi in Hlb. congruence. }
      specialize (Hamono' ltac:(lia)).
      destruct (lookup_lt_is_Some_2 xs i') as [x' Hx'].
      { apply lookup_lt_Some in Hxi. lia. }
      rewrite Hx' in Hlb. apply Z.leb_gt in Hlb.
      destruct (sorted_lookup_le xs i' i x' x Htrans Hxs Hx' Hxi Hamono') as [Heq|Hle'].
      * rewrite Heq, Hxi in Hx'. injection Hx' as <-. lia.
      * pose proof (Htrans x' x y Hle' Hle) as Hc. unfold cmp_le in Hc. lia.
Qed.

(** *** What the walk keeps *)

Lemma until_zero_spec (l : list Prefix) :
  Forall (fun p => p <> Prefix_zero) (until_zero l) /\ until_zero l ⊆ l.
Proof.
  induction l as [|x l [IH1 IH2]]; simpl; [by split|].
  case_bool_decide; [split; [done|apply list_subseteq_nil]|].
  split; [by constructor|].
  intros y Hy. apply elem_of_cons in Hy as [->|Hy]; apply elem_of_cons;
    [by left|right; by apply IH2].
Qed.

Lemma merge_spec_sublist (l k : list Prefix) :
  l `sublist_of` merge_spec cmp l k /\ k `sublist_of` merge_spec cmp l k.
Proof.
  revert k. induction l as [|x l IHl]; intros k.
  - rewrite merge_spec_nil_l. split; [apply sublist_nil_l|done].
  - induction k as [|y k IHk].
    + rewrite merge_spec_nil_r. split; [done|apply sublist_nil_l].
    + rewrite merge_spec_cons. destruct (cmp x y <=? 0).
      * destruct (IHl (y :: k)) as [Hl Hk]. split; [by apply sublist_skip|by apply sublist_cons].
      * destruct IHk as [Hl Hk]. split; [by apply sublist_cons|by apply sublist_skip].
Qed.

(** X14: the walk keeps the order within each slice.  For slices without
    zero prefixes and any comparator, each of the two slices is a
    subsequence of the walk: its elements appear in the walk in the order
    they have in the slice. *)
Theorem walk_keeps_slice_order (fuel : nat) :
  len xs + len ys <= max_int ->
  Forall (fun p => p <> Prefix_zero) xs -> Forall (fun p => p <> Prefix_zero) ys ->
  (length xs + length ys < fuel)%nat ->
  exists l, walk fuel xs ys cmp = Ret l /\
            xs `sublist_of` l /\ ys `sublist_of` l.
Proof.
  intros Hfit Hxs Hys Hfuel. exists (merge_spec cmp xs ys).
  split; [by apply walk_no_zero|apply merge_spec_sublist].
Qed.

(** X15: whatever the slices hold (zero prefixes included) and whatever the
    comparator, the walk returns within [len(a) + len(b) + 1] rounds and
    what it emits is never the zero prefix and always an element of one of
    the slices; it emits at most [len(a) + len(b)] elements. *)
Theorem walk_emits_only_inputs (fuel : nat) :
  len xs + len ys <= max_int ->
  (length xs + length ys < fuel)%nat ->
  exists l, walk fuel xs ys cmp = Ret l /\
            Forall (fun p => p <> Prefix_zero /\ (p ∈ xs \/ p ∈ ys)) l /\
            (length l <= length xs + length ys)%nat.
Proof.
  intros Hfit Hfuel. exists (until_zero (merge_spec cmp xs ys)).
  split; [by apply walk_merge_spec|].
  destruct (until_zero_spec (merge_spec cmp xs ys)) as [Hnz Hsub].
  split.
  - apply Forall_forall. intros p Hp. split; [by apply (proj1 (Forall_forall _ _) Hnz)|].
    apply Hsub in Hp. rewrite merge_spec_perm in Hp. by apply elem_of_app in Hp.
  - rewrite <- (merge_spec_length cmp xs ys).
    apply prefix_length, until_zero_prefix.
Qed.

End merge_iterator_more.

(** X16: with one slice empty the comparator is never consulted: the walk
    over a slice and an empty slice, in either position, emits that slice
    up to its first zero prefix, for any comparator. *)
Theorem walk_one_empty (cmp : Prefix -> Prefix -> Z) (xs : list Prefix) (fuel : nat) :
  len xs <= max_int ->
  (length xs < fuel)%nat ->
  walk fuel xs [] cmp = Ret (until_zero xs) /\
  walk fuel [] xs cmp = Ret (until_zero xs).
Proof.
  intros Hfit Hfuel. split.
  - rewrite walk_merge_spec; [by rewrite merge_spec_nil_r| |simpl; lia].
    unfold len in *. simpl. lia.
  - rewrite walk_merge_spec; [by rewrite merge_spec_nil_l| |simpl; lia].
    unfold len in *. simpl. lia.
Qed.

Lemma Inc_keeps_cursors_witness :
  exists it,
    (newMergeIter [p_10_0_0_0_24; p_10_0_2_0_24] [p_10_0_1_0_24] PrefixCompare
       ≫= Inc_n (N.of_nat 5)) = Ret it /\
    ia it + ib it = 5.
Proof.
  destruct (Inc_keeps_cursors PrefixCompare
              [p_10_0_0_0_24; p_10_0_2_0_24] [p_10_0_1_0_24] 5)
    as (it & Hit & _ & _ & Hsum & _).
  - vm_compute. discriminate.
  - exists it. by split.
Defined.

Lemma emission_order_witness :
  (0 < 1)%nat <-> PrefixCompare p_10_0_0_0_24 p_10_0_0_0_24 <= 0.
Proof.
  refine (proj2 (proj2
    (emission_order PrefixCompare [p_10_0_0_0_24] [p_10_0_0_0_24] 0 1
       (mkIter [p_10_0_0_0_24] [p_10_0_0_0_24] 0 0 PrefixCompare true)
       (mkIter [p_10_0_0_0_24] [p_10_0_0_0_24] 1 0 PrefixCompare false)
       p_10_0_0_0_24 p_10_0_0_0_24 _ _ _ _ _ _ _ _ _ _ _ _))).
  - intros u v w. unfold cmp_le, PrefixCompare, Addr_Compare.
    repeat case_bool_decide; repeat case_match; lia.
  - repeat constructor.
  - repeat constructor.
  - vm_compute. discriminate.
  - vm_compute. discriminate.
  - vm_compute. discriminate.
  - reflexivity.
  - reflexivity.
  - reflexivity.
  - reflexivity.
  - reflexivity.
  - reflexivity.
Defined.

Lemma walk_keeps_slice_order_witness :
  exists l,
    walk 4 [p_10_0_0_0_24; p_10_0_2_0_24] [p_10_0_1_0_24] PrefixCompare = Ret l /\
    [p_10_0_0_0_24; p_10_0_2_0_24] `sublist_of` l.
Proof.
  destruct (walk_keeps_slice_order PrefixCompare
              [p_10_0_0_0_24; p_10_0_2_0_24] [p_10_0_1_0_24] 4)
    as (l & Hwalk & Hxs & _).
  - vm_compute. discriminate.
  - repeat constructor; discriminate.
  - repeat constructor; discriminate.
  - simpl. lia.
  - exists l. by split.
Defined.

Lemma walk_emits_only_inputs_witness :
  exists l,
    walk 4 [p_10_0_0_0_24; Prefix_zero; p_10_0_2_0_24] [] PrefixCompare = Ret l /\
    (length l <= 3)%nat.
Proof.
  destruct (walk_emits_only_inputs PrefixCompare
              [p_10_0_0_0_24; Prefix_zero; p_10_0_2_0_24] [] 4)
    as (l & Hwalk & _ & Hlen).
  - vm_compute. discriminate.
  - simpl. lia.
  - exists l. by split.
Defined.

Lemma walk_one_empty_witness :
  walk 3 [] [p_10_0_2_0_24; p_10_0_0_0_24] PrefixCompare
  = Ret [p_10_0_2_0_24; p_10_0_0_0_24].
Proof.
  refine (eq_trans (proj2 (walk_one_empty PrefixCompare
                             [p_10_0_2_0_24; p_10_0_0_0_24] 3 _ _)) _).
  - vm_compute. discriminate.
  - simpl. lia.
  - reflexivity.
Defined.
